(** * GeneralStack: a stack of fixed-size items kept in a list of tables

    Shallow embedding of [generalStack.c] and the properties of its
    operations.  The C functions become functions of a small state and
    error monad over a machine that holds the [Stack] object, the
    destination buffer of [pop] and the log of the allocator calls.

    Conventions (LP64 ABI):
    - [unsigned int] is 32 bits wide: a value is a [Z] in [0, UINT_MAX]
      and every arithmetic operation of the source is followed by
      [uwrap]; [int] is 32 bits wide, two's complement;
    - [sizeof(Stack)] is 24 and [sizeof(struct node)] is 16;
    - a [struct node *] is the list of the [Items] tables reached through
      [next]; [NULL] is the empty list;
    - [exit(0)] is the outcome [Exit], carrying the machine at the time of
      the call; an access outside an allocated table, a dereference of
      [NULL] and a signed overflow are the outcome [Undef]. *)

From Stdlib Require Import ZArith List Lia Bool.
From Stdlib Require Strings.Byte.
Import ListNotations.
Local Open Scope Z_scope.

(** ** Machine integers *)

Definition UINT_MAX : Z := 4294967295.
Definition INT_MAX : Z := 2147483647.
Definition INT_MIN : Z := -2147483648.

(** Result of an [unsigned int] operation. *)
Definition uwrap (z : Z) : Z := z mod (UINT_MAX + 1).

(** Conversion of an [unsigned int] value to [int]: modulo [UINT_MAX + 1],
    as the compilers of this ABI define it. *)
Definition to_int (z : Z) : Z := if z <=? INT_MAX then z else z - (UINT_MAX + 1).

(** Conversion of an [int] value to [unsigned int]. *)
Definition to_uint (z : Z) : Z := uwrap z.

Definition is_uint (z : Z) : Prop := 0 <= z <= UINT_MAX.

(** ** Tables of bytes *)

Definition byte : Type := Byte.byte.
Definition table : Type := list byte.

Definition in_bounds (b : table) (off len : Z) : bool :=
  (0 <=? off) && (0 <=? len) && (off + len <=? Zlength b).

Definition slice (b : table) (off len : Z) : list byte :=
  firstn (Z.to_nat len) (skipn (Z.to_nat off) b).

(** Read of [len] bytes at [b + off]. *)
Definition load (b : table) (off len : Z) : option (list byte) :=
  if in_bounds b off len then Some (slice b off len) else None.

(** Write of the bytes [src] at [b + off]. *)
Definition store (b : table) (off : Z) (src : list byte) : option table :=
  if in_bounds b off (Zlength src)
  then Some (firstn (Z.to_nat off) b ++ src
             ++ skipn (Z.to_nat (off + Zlength src)) b)
  else None.

(** ** The data of the source *)

(** [struct _stack]; [head] is the list of tables, newest first. *)
Record Stack : Type := mkStack {
  head : list table;
  i : Z;
  n : Z;
  itemSize : Z;
  initialSize : Z
}.

Definition set_head (h : list table) (s : Stack) : Stack :=
  mkStack h s.(i) s.(n) s.(itemSize) s.(initialSize).
Definition set_i (v : Z) (s : Stack) : Stack :=
  mkStack s.(head) v s.(n) s.(itemSize) s.(initialSize).
Definition set_n (v : Z) (s : Stack) : Stack :=
  mkStack s.(head) s.(i) v s.(itemSize) s.(initialSize).

Definition sizeof_Stack : Z := 24.
Definition sizeof_node : Z := 16.

(** ** The machine *)

(** What [free] is given: a node of the list, or a table with the bytes
    it holds at that time. *)
Inductive block : Type :=
| NodeBlock
| ItemsBlock (bytes : table).

(** The calls of the allocator that serve or release a block. *)

Inductive event : Type :=
| Malloc (size : Z)
| Free (b : block).

(** [m_stack] is the object behind the [Stack *] handle, [None] for a
    [NULL] handle; [m_dest] is the memory behind [dest]. *)
Record machine : Type := mkMachine {
  m_stack : option Stack;
  m_dest : list byte;
  m_log : list event
}.

Inductive outcome (A : Type) : Type :=
| Ret (a : A) (m : machine)
| Exit (m : machine)
| Undef.
Arguments Ret {A} a m.
Arguments Exit {A} m.
Arguments Undef {A}.

Definition M (A : Type) : Type := machine -> outcome A.

Definition ret {A} (a : A) : M A := fun m => Ret a m.
Definition exit0 {A} : M A := fun m => Exit m.
Definition undef {A} : M A := fun _ => Undef.
Definition bind {A B} (c : M A) (k : A -> M B) : M B :=
  fun m => match c m with
           | Ret a m' => k a m'
           | Exit m' => Exit m'
           | Undef => Undef
           end.

Notation "x <- c ;; k" := (bind c (fun x => k))
  (at level 61, c at next level, right associativity).
Notation "c ;;; k" := (bind c (fun _ => k))
  (at level 61, right associativity).

Definition get_stack : M (option Stack) := fun m => Ret m.(m_stack) m.
Definition set_stack (p : option Stack) : M unit :=
  fun m => Ret tt (mkMachine p m.(m_dest) m.(m_log)).
Definition emit (e : event) : M unit :=
  fun m => Ret tt (mkMachine m.(m_stack) m.(m_dest) (m.(m_log) ++ [e])).

(** Field update through the handle. *)
Definition update_stack (f : Stack -> Stack) : M unit :=
  fun m => match m.(m_stack) with
           | Some s => Ret tt (mkMachine (Some (f s)) m.(m_dest) m.(m_log))
           | None => Undef
           end.

(** [memcpy(stack->head->Items + off, src, |src|)] *)
Definition write_head_items (off : Z) (src : list byte) : M unit :=
  fun m => match m.(m_stack) with
           | Some s =>
             match s.(head) with
             | Items :: next =>
               match store Items off src with
               | Some Items' =>
                 Ret tt (mkMachine (Some (set_head (Items' :: next) s))
                                   m.(m_dest) m.(m_log))
               | None => Undef
               end
             | [] => Undef
             end
           | None => Undef
           end.

(** [memcpy(dest, src, |src|)] *)
Definition write_dest (src : list byte) : M unit :=
  fun m => match store m.(m_dest) 0 src with
           | Some d => Ret tt (mkMachine m.(m_stack) d m.(m_log))
           | None => Undef
           end.

Definition read (b : table) (off len : Z) : M (list byte) :=
  match load b off len with
  | Some bs => ret bs
  | None => undef
  end.

Definition free (b : block) : M unit := emit (Free b).

Definition get_dest : M (list byte) := fun m => Ret m.(m_dest) m.

Section Allocator.

(** The allocator: [malloc size] is [None] when the call returns [NULL],
    and otherwise gives the (indeterminate) initial contents of the block
    by offset. *)
Variable malloc : Z -> option (nat -> byte).

Definition fresh (fill : nat -> byte) (size : Z) : table :=
  map fill (seq 0 (Z.to_nat size)).

(** [p = malloc(size); if (p == NULL) exit(0);] *)
Definition malloc_or_exit (size : Z) : M table :=
  match malloc size with
  | Some fill => emit (Malloc size) ;;; ret (fresh fill size)
  | None => exit0
  end.

Definition initStack (initial_size item_size : Z) : M unit :=
  malloc_or_exit sizeof_Stack ;;;
  malloc_or_exit sizeof_node ;;;
  Items <- malloc_or_exit (uwrap (initial_size * item_size)) ;;
  set_stack (Some {| head := [Items];
                     n := initial_size;
                     initialSize := initial_size;
                     itemSize := item_size;
                     i := 0 |}).

Definition isStackEmpty : M Z :=
  p <- get_stack ;;
  match p with
  | None => undef
  | Some stack =>
    if stack.(i) =? 0 then
      match stack.(head) with
      | [] => undef
      | _ :: next => ret (match next with [] => 1 | _ :: _ => 0 end)
      end
    else ret 0
  end.

(** The [for] loop of [itemExists] over one table; [k] is [i + 1].  The
    loop either leaves the function with a value or falls through with
    the remaining [max_depth].  [equal] is given the item and the
    [itemSize] bytes behind the pointer to the candidate. *)
Fixpoint scan_table (equal : list byte -> list byte -> Z) (item : list byte)
    (Items : table) (itemSize : Z) (k : nat) (max_depth : Z)
  : M (Z + Z) :=
  match k with
  | O => ret (inr max_depth)
  | S k' =>
    let i := Z.of_nat k' in
    if max_depth =? 0 then ret (inl 0)
    else
      let max_depth := if max_depth >? 0 then max_depth - 1 else max_depth in
      cand <- read Items (uwrap (to_uint i * itemSize)) itemSize ;;
      if equal item cand =? 0
      then scan_table equal item Items itemSize k' max_depth
      else ret (inl 1)
  end.

(** The [while] loop of [itemExists]; [n] and [i] are the [int] locals. *)
Fixpoint walk_tables (equal : list byte -> list byte -> Z) (item : list byte)
    (stack : Stack) (node_ptr : list table) (n i : Z) (max_depth : Z)
  : M Z :=
  match node_ptr with
  | [] => ret 0
  | Items :: next =>
    r <- (if i <? 0 then ret (inr max_depth)
          else scan_table equal item Items stack.(itemSize)
                          (Z.to_nat (i + 1)) max_depth) ;;
    match r with
    | inl v => ret v
    | inr max_depth =>
      let n := to_int (uwrap (to_uint n - stack.(initialSize))) in
      if n =? INT_MIN then undef
      else walk_tables equal item stack next n (n - 1) max_depth
    end
  end.

Definition itemExists (item : list byte) (max_depth : Z)
    (equal : list byte -> list byte -> Z) : M Z :=
  p <- get_stack ;;
  match p with
  | None => undef
  | Some stack =>
    walk_tables equal item stack stack.(head)
                (to_int stack.(n)) (to_int (uwrap (stack.(i) - 1))) max_depth
  end.

Definition push (item : list byte) : M unit :=
  p <- get_stack ;;
  match p with
  | None => exit0
  | Some stack =>
    let head := stack.(head) in
    let i := stack.(i) in
    let n := stack.(n) in
    let itemSize := stack.(itemSize) in
    i <- (if i =? n then
            let n := uwrap (n + stack.(initialSize)) in
            if i >=? n then exit0
            else
              malloc_or_exit sizeof_node ;;;
              Items <- malloc_or_exit (uwrap (n * itemSize)) ;;
              update_stack (fun s => set_n n (set_head (Items :: head) s)) ;;;
              ret 0
          else ret i) ;;
    src <- read item 0 itemSize ;;
    write_head_items (uwrap (i * itemSize)) src ;;;
    update_stack (set_i (uwrap (i + 1)))
  end.

Definition pop : M unit :=
  p <- get_stack ;;
  match p with
  | None => exit0
  | Some stack =>
    e <- isStackEmpty ;;
    if e =? 0 then
      let head := stack.(head) in
      let i := stack.(i) in
      let n := stack.(n) in
      let itemSize := stack.(itemSize) in
      hi <- (if i =? 0 then
               let n := uwrap (n - stack.(initialSize)) in
               match head with
               | [] => undef
               | old_Items :: next =>
                 free (ItemsBlock old_Items) ;;;
                 free NodeBlock ;;;
                 update_stack (fun s => set_n n (set_head next s)) ;;;
                 ret (next, n)
               end
             else ret (head, i)) ;;
      let '(head, i) := hi in
      let i := uwrap (i - 1) in
      match head with
      | [] => undef
      | Items :: _ =>
        src <- read Items (uwrap (i * itemSize)) itemSize ;;
        write_dest src ;;;
        update_stack (set_i i)
      end
    else exit0
  end.

(** [for (k = 0; k < N; k++) push(stack, items[k]);] *)
Fixpoint push_all (items : list (list byte)) : M unit :=
  match items with
  | [] => ret tt
  | item :: rest => push item ;;; push_all rest
  end.

(** [for (k = 0; k < N; k++) { pop(stack, dest); out[k] = *dest; }] *)
Fixpoint pop_all (N : nat) : M (list (list byte)) :=
  match N with
  | O => ret []
  | S N' =>
    pop ;;;
    out <- get_dest ;;
    rest <- pop_all N' ;;
    ret (out :: rest)
  end.

(** The stacks a client can hold: made by [initStack] and changed by
    completed calls of [push] and [pop].  The index is the history seen
    from outside: the items pushed and not yet popped, newest first. *)
Inductive reach (initial_size item_size : Z)
  : list (list byte) -> Stack -> Prop :=
| reach_init (m m' : machine) (s : Stack) :
    is_uint initial_size -> is_uint item_size ->
    initStack initial_size item_size m = Ret tt m' ->
    m'.(m_stack) = Some s ->
    reach initial_size item_size [] s
| reach_push (pushed : list (list byte)) (s s' : Stack) (item : list byte)
    (m m' : machine) :
    reach initial_size item_size pushed s ->
    m.(m_stack) = Some s ->
    push item m = Ret tt m' ->
    m'.(m_stack) = Some s' ->
    reach initial_size item_size (slice item 0 item_size :: pushed) s'
| reach_pop (pushed : list (list byte)) (s s' : Stack) (m m' : machine) :
    reach initial_size item_size pushed s ->
    m.(m_stack) = Some s ->
    pop m = Ret tt m' ->
    m'.(m_stack) = Some s' ->
    reach initial_size item_size (tl pushed) s'.

Definition reachable (initial_size item_size : Z) (s : Stack) : Prop :=
  exists pushed, reach initial_size item_size pushed s.

End Allocator.

(** ** What a stack holds *)

(** The items at the indices [k - 1], ..., [0] of a table. *)
Fixpoint items_of (Items : table) (isz : Z) (k : nat) : list (list byte) :=
  match k with
  | O => []
  | S k' => slice Items (Z.of_nat k' * isz) isz :: items_of Items isz k'
  end.

(** The tables under the head are full; [cap] is the size in items of the
    first of them, and each one below is [init] items smaller. *)
Fixpoint full_tables (init isz : Z) (node_ptr : list table) (cap : Z) : Prop :=
  match node_ptr with
  | [] => cap = 0
  | Items :: next =>
    0 < cap /\ Zlength Items = cap * isz /\ cap * isz <= UINT_MAX /\
    full_tables init isz next (cap - init)
  end.

Fixpoint tables_items (init isz : Z) (node_ptr : list table) (cap : Z)
  : list (list byte) :=
  match node_ptr with
  | [] => []
  | Items :: next =>
    items_of Items isz (Z.to_nat cap) ++ tables_items init isz next (cap - init)
  end.

(** The items of a stack, newest first. *)
Definition contents (s : Stack) : list (list byte) :=
  match s.(head) with
  | [] => []
  | Items :: next =>
    items_of Items s.(itemSize) (Z.to_nat s.(i))
    ++ tables_items s.(initialSize) s.(itemSize) next (s.(n) - s.(initialSize))
  end.

(** Representation invariant of [struct _stack]. *)
Definition Inv (s : Stack) : Prop :=
  is_uint s.(itemSize) /\ is_uint s.(initialSize) /\
  match s.(head) with
  | [] => False
  | Items :: next =>
    0 <= s.(i) <= s.(n) /\ s.(n) <= UINT_MAX /\
    Zlength Items = uwrap (s.(n) * s.(itemSize)) /\
    s.(i) * s.(itemSize) <= Zlength Items /\
    full_tables s.(initialSize) s.(itemSize) next (s.(n) - s.(initialSize))
  end.

(** ** The search, on the items *)

(** What [itemExists] computes, on the list of the items newest first:
    [inl v] when the search ends with the value [v], [inr d] when the
    items are exhausted with the depth [d] left. *)
Fixpoint search_items (equal : list byte -> list byte -> Z) (item : list byte)
    (items : list (list byte)) (max_depth : Z) : Z + Z :=
  match items with
  | [] => inr max_depth
  | cand :: rest =>
    if max_depth =? 0 then inl 0
    else if equal item cand =? 0
         then search_items equal item rest
                (if max_depth >? 0 then max_depth - 1 else max_depth)
         else inl 1
  end.

Definition search_result (r : Z + Z) : Z :=
  match r with inl v => v | inr _ => 0 end.

(** The search as the specification words it: the answer is 1 exactly
    when the predicate is non-zero on one of the items looked at, which
    are all the items when [max_depth] is negative and the [max_depth]
    newest ones otherwise. *)
Definition found_within (equal : list byte -> list byte -> Z)
    (item : list byte) (items : list (list byte)) (max_depth : Z) : Z :=
  if existsb (fun cand => negb (equal item cand =? 0))
             (if max_depth <? 0 then items
              else firstn (Z.to_nat max_depth) items)
  then 1 else 0.

(** ** The release of a stack *)

(** The [while] loop of [freeStack]; [node_ptr] is [stack->head], which
    each turn moves to the next node before the table and the node are
    freed. *)
Fixpoint free_nodes (node_ptr : list table) : M unit :=
  match node_ptr with
  | [] => ret tt
  | Items :: next =>
    update_stack (set_head next) ;;;
    free (ItemsBlock Items) ;;;
    free NodeBlock ;;;
    free_nodes next
  end.

(** What [freeStack] leaves: after [free(stack)] there is no [Stack]
    object any more, and [Freed] keeps the rest of the machine, the
    destination and the log of the frees of the tables and the nodes;
    the release of the object itself is this constructor. *)
Inductive after_free : Type :=
| Freed (dest : list byte) (log : list event)
| FreeExit (m : machine)
| FreeUndef.

Definition freeStack (m : machine) : after_free :=
  match m.(m_stack) with
  | None => FreeExit m
  | Some stack =>
    match free_nodes stack.(head) m with
    | Ret _ m' => Freed m'.(m_dest) m'.(m_log)
    | Exit m' => FreeExit m'
    | Undef => FreeUndef
    end
  end.

(** ** Sessions *)

(** The calls a client makes on a stack it holds. *)
Inductive call : Type :=
| Push (item : list byte)
| Pop
| Search (item : list byte) (max_depth : Z)
         (equal : list byte -> list byte -> Z)
| IsEmpty.

Definition do_call (malloc : Z -> option (nat -> byte)) (c : call) : M unit :=
  match c with
  | Push item => push malloc item
  | Pop => pop
  | Search item max_depth equal => itemExists item max_depth equal ;;; ret tt
  | IsEmpty => isStackEmpty ;;; ret tt
  end.

Fixpoint run_calls (malloc : Z -> option (nat -> byte)) (calls : list call)
  : M unit :=
  match calls with
  | [] => ret tt
  | c :: rest => do_call malloc c ;;; run_calls malloc rest
  end.

Definition is_malloc (e : event) : bool :=
  match e with Malloc _ => true | Free _ => false end.

(** The numbers of blocks a log allocates and frees. *)
Definition mallocs (log : list event) : Z := Zlength (filter is_malloc log).
Definition frees (log : list event) : Z :=
  Zlength (filter (fun e => negb (is_malloc e)) log).

(** ** The blocks a log leaves allocated *)

(** Where a log stands between two blocks: nothing half done, a node
    allocated whose table is not yet, or a table freed whose node is not
    yet. *)
Inductive phase : Type :=
| Settled
| NodeAllocated
| TableFreed.

(** The blocks allocated and not freed after a log: the [Stack] object,
    and for each node, newest first, the byte size of its table. *)
Record blocks : Type := mkBlocks {
  b_object : bool;
  b_phase : phase;
  b_tables : list Z
}.

Definition no_block : blocks := mkBlocks false Settled [].

(** One event of the log, in the order in which the code allocates and
    frees: the [Stack] object first, then a node and its table; a table
    is freed before its node, and only those of the newest node.  [None]
    when the event does not fit: a block freed that is not allocated (or
    freed twice), a node left without its table, a table whose node is
    not freed next. *)
Definition account (b : blocks) (e : event) : option blocks :=
  match e, b.(b_phase) with
  | Malloc size, Settled =>
    if b.(b_object)
    then if size =? sizeof_node
         then Some (mkBlocks true NodeAllocated b.(b_tables))
         else None
    else if size =? sizeof_Stack
         then Some (mkBlocks true Settled b.(b_tables))
         else None
  | Malloc size, NodeAllocated =>
    Some (mkBlocks b.(b_object) Settled (size :: b.(b_tables)))
  | Free (ItemsBlock Items), Settled =>
    match b.(b_tables) with
    | size :: rest =>
      if Zlength Items =? size
      then Some (mkBlocks b.(b_object) TableFreed rest)
      else None
    | [] => None
    end
  | Free NodeBlock, TableFreed =>
    Some (mkBlocks b.(b_object) Settled b.(b_tables))
  | _, _ => None
  end.

Fixpoint accounts (b : blocks) (log : list event) : option blocks :=
  match log with
  | [] => Some b
  | e :: rest =>
    match account b e with
    | Some b' => accounts b' rest
    | None => None
    end
  end.

(** The events that free a chain of tables, newest first. *)

Definition frees_of (node_ptr : list table) : list event :=
  flat_map (fun Items => [Free (ItemsBlock Items); Free NodeBlock]) node_ptr.

(** ** Sample data *)

(** An allocator that never fails and hands out zeroed blocks. *)
Definition calloc_like : Z -> option (nat -> byte) :=
  fun _ => Some (fun _ => Byte.x00).

Definition word (b : byte) : list byte := [b; Byte.x00; Byte.x00; Byte.x00].

Definition blank : machine := mkMachine None (word Byte.x00) [].

Definition machine_of (s : Stack) : machine :=
  mkMachine (Some s) (word Byte.x00) [].

(** [initStack(2, 4)] *)
Definition stack0 : Stack :=
  mkStack [repeat Byte.x00 8] 0 2 4 2.

(** ... after [push] of 1 and of 2: the first table is full. *)
Definition stack2 : Stack :=
  mkStack [word Byte.x01 ++ word Byte.x02] 2 2 4 2.

(** ... after [push] of 3: a second table, of four items. *)
Definition stack3 : Stack :=
  mkStack [word Byte.x03 ++ repeat Byte.x00 12; word Byte.x01 ++ word Byte.x02]
          1 4 4 2.

(** ... after [pop]: the second table is empty and still there. *)
Definition stack3' : Stack :=
  mkStack [word Byte.x03 ++ repeat Byte.x00 12; word Byte.x01 ++ word Byte.x02]
          0 4 4 2.

(** [initStack(0, 4)] *)
Definition stack_zero : Stack := mkStack [[]] 0 0 4 0.

(** [initStack(0x80000000, 2)]: the byte size of the table wraps to 0. *)
Definition stack_wrapped : Stack := mkStack [[]] 0 2147483648 2 2147483648.


(** [initStack(1, 4)] after one [push]: the only table is full. *)
Definition stack_full1 : Stack := mkStack [word Byte.x01] 1 1 4 1.

(** An allocator with room for the nodes only. *)
Definition nodes_only (size : Z) : option (nat -> byte) :=
  if size =? sizeof_node then calloc_like size else None.

(** [initStack(0x80000000, 0)] after 0x80000000 pushes of an item of no
    byte: the only table is full, and the next size wraps to 0. *)
Definition stack_at_limit : Stack :=
  mkStack [[]] 2147483648 2147483648 0 2147483648.

(** A machine whose destination holds one byte. *)


Definition blank1 : machine := mkMachine None [Byte.x00] [].

(** [count] items of one byte. *)
Abbreviation bytes_2a count := (repeat [Byte.x2a] (Z.to_nat count)).

(** An [equal] for [itemExists]: 1 on equal byte strings, 0 otherwise. *)
Definition same_bytes (a b : list byte) : Z :=
  if list_eq_dec Strings.Byte.byte_eq_dec a b then 1 else 0.

(** ** Proof automation *)

(** Unfolding of the monad. *)
Ltac run :=
  unfold bind, ret, exit0, undef, get_stack, set_stack, update_stack, emit,
    free, get_dest, read, write_dest, write_head_items, malloc_or_exit;
  simpl.

(** Case analysis on every test the goal is stuck on. *)
Ltac branches :=
  repeat (match goal with
          | |- context [match ?x with _ => _ end] => destruct x eqn:?
          | H : context [match ?x with _ => _ end] |- _ => destruct x eqn:?
          end; simpl in *; unfold ret, undef in *;
          try discriminate; try congruence).

(** ** Machine integers: basic facts *)

Lemma Zlength_nonneg {A} (l : list A) : 0 <= Zlength l.
Proof. rewrite Zlength_correct. lia. Qed.

Lemma uwrap_small (z : Z) : 0 <= z <= UINT_MAX -> uwrap z = z.
Proof. intros H. unfold uwrap, UINT_MAX in *. apply Z.mod_small. lia. Qed.

Lemma uwrap_range (z : Z) : 0 <= uwrap z <= UINT_MAX.
Proof.
  unfold uwrap, UINT_MAX.
  pose proof (Z.mod_pos_bound z (4294967295 + 1)). lia.
Qed.

Lemma uwrap_add_carry (a b : Z) :
  0 <= a <= UINT_MAX -> 0 <= b <= UINT_MAX -> UINT_MAX < a + b ->
  uwrap (a + b) = a + b - (UINT_MAX + 1).
Proof.
  intros Ha Hb Hc. unfold uwrap, UINT_MAX in *.
  symmetry. apply Z.mod_unique with (q := 1); lia.
Qed.

Lemma uwrap_minus_one : uwrap (0 - 1) = UINT_MAX.
Proof. reflexivity. Qed.

Lemma to_int_small (z : Z) : z <= INT_MAX -> to_int z = z.
Proof. intros H. unfold to_int. apply Z.leb_le in H. now rewrite H. Qed.

Lemma to_int_large (z : Z) : INT_MAX < z -> to_int z = z - (UINT_MAX + 1).
Proof. intros H. unfold to_int. apply Z.leb_gt in H. now rewrite H. Qed.

(** ** Tables: basic facts *)

Lemma firstn_skipn_app_below {A} (l1 l2 : list A) (o l : nat) :
  (o + l <= length l1)%nat ->
  firstn l (skipn o (l1 ++ l2)) = firstn l (skipn o l1).
Proof.
  intros H. rewrite skipn_app, firstn_app.
  replace (l - length (skipn o l1))%nat with 0%nat
    by (rewrite length_skipn; lia).
  simpl. now rewrite app_nil_r.
Qed.

Lemma firstn_skipn_firstn {A} (b : list A) (o l off : nat) :
  (o + l <= off)%nat ->
  firstn l (skipn o (firstn off b)) = firstn l (skipn o b).
Proof.
  intros H. rewrite skipn_firstn_comm, firstn_firstn.
  f_equal. lia.
Qed.

Lemma in_bounds_spec (b : table) (off len : Z) :
  in_bounds b off len = true <-> 0 <= off /\ 0 <= len /\ off + len <= Zlength b.
Proof.
  unfold in_bounds. rewrite !andb_true_iff, !Z.leb_le. tauto.
Qed.

Lemma load_Some (b : table) (off len : Z) :
  0 <= off -> 0 <= len -> off + len <= Zlength b ->
  load b off len = Some (slice b off len).
Proof.
  intros H1 H2 H3. unfold load.
  now rewrite (proj2 (in_bounds_spec b off len)).
Qed.

Lemma load_inv (b : table) (off len : Z) (bs : list byte) :
  load b off len = Some bs ->
  bs = slice b off len /\ 0 <= off /\ 0 <= len /\ off + len <= Zlength b.
Proof.
  unfold load. destruct (in_bounds b off len) eqn:E; [|discriminate].
  intros [= <-]. split; [reflexivity|]. now apply in_bounds_spec.
Qed.

Lemma Zlength_slice (b : table) (off len : Z) :
  0 <= off -> 0 <= len -> off + len <= Zlength b ->
  Zlength (slice b off len) = len.
Proof.
  intros H1 H2 H3. unfold slice. rewrite !Zlength_correct in *.
  rewrite length_firstn, length_skipn. lia.
Qed.

Lemma store_Some (b : table) (off : Z) (src : list byte) :
  0 <= off -> off + Zlength src <= Zlength b ->
  exists b', store b off src = Some b'.
Proof.
  intros H1 H2. unfold store.
  rewrite (proj2 (in_bounds_spec b off (Zlength src))).
  - eauto.
  - pose proof (Zlength_nonneg src). lia.
Qed.

Lemma store_inv (b : table) (off : Z) (src : list byte) (b' : table) :
  store b off src = Some b' ->
  0 <= off /\ off + Zlength src <= Zlength b /\
  b' = firstn (Z.to_nat off) b ++ src
       ++ skipn (Z.to_nat (off + Zlength src)) b.
Proof.
  unfold store. destruct (in_bounds b off (Zlength src)) eqn:E; [|discriminate].
  intros [= <-]. apply in_bounds_spec in E. tauto.
Qed.

Lemma Zlength_store (b : table) (off : Z) (src : list byte) (b' : table) :
  store b off src = Some b' -> Zlength b' = Zlength b.
Proof.
  intros H. apply store_inv in H. destruct H as (H1 & H2 & ->).
  rewrite !Zlength_correct in *.
  rewrite !length_app, length_firstn, length_skipn. lia.
Qed.

Lemma slice_store_same (b : table) (off : Z) (src : list byte) (b' : table) :
  store b off src = Some b' -> slice b' off (Zlength src) = src.
Proof.
  intros H. apply store_inv in H. destruct H as (H1 & H2 & ->).
  unfold slice. rewrite !Zlength_correct in *.
  rewrite skipn_app.
  rewrite skipn_all2 by (rewrite length_firstn; lia).
  rewrite length_firstn.
  replace (Z.to_nat off - Nat.min (Z.to_nat off) (length b))%nat with 0%nat by lia.
  simpl. rewrite firstn_app, Nat2Z.id, firstn_all, Nat.sub_diag.
  simpl. now rewrite app_nil_r.
Qed.

Lemma slice_store_below (b : table) (off : Z) (src : list byte) (b' : table)
    (o l : Z) :
  store b off src = Some b' -> 0 <= o -> 0 <= l -> o + l <= off ->
  slice b' o l = slice b o l.
Proof.
  intros H Ho Hl Hle. apply store_inv in H. destruct H as (H1 & H2 & ->).
  unfold slice. pose proof (Zlength_nonneg src) as Hs.
  rewrite !Zlength_correct in *.
  rewrite firstn_skipn_app_below by (rewrite length_firstn; lia).
  apply firstn_skipn_firstn. lia.
Qed.

Lemma Zlength_fresh (fill : nat -> byte) (size : Z) :
  0 <= size -> Zlength (fresh fill size) = size.
Proof.
  intros H. unfold fresh.
  rewrite Zlength_correct, length_map, length_seq. lia.
Qed.

(** ** The operations, one path at a time *)

Section Runs.

Variable malloc : Z -> option (nat -> byte).

Lemma malloc_or_exit_Some (size : Z) (fill : nat -> byte) (m : machine) :
  malloc size = Some fill ->
  malloc_or_exit malloc size m
  = Ret (fresh fill size)
        (mkMachine m.(m_stack) m.(m_dest) (m.(m_log) ++ [Malloc size])).
Proof. intros H. run. now rewrite H. Qed.

Lemma malloc_or_exit_None (size : Z) (m : machine) :
  malloc size = None -> malloc_or_exit malloc size m = Exit m.
Proof. intros H. run. now rewrite H. Qed.

Lemma initStack_run (initial_size item_size : Z) (m : machine)
    (f1 f2 f3 : nat -> byte) :
  malloc sizeof_Stack = Some f1 ->
  malloc sizeof_node = Some f2 ->
  malloc (uwrap (initial_size * item_size)) = Some f3 ->
  initStack malloc initial_size item_size m
  = Ret tt (mkMachine
              (Some (mkStack [fresh f3 (uwrap (initial_size * item_size))]
                             0 initial_size item_size initial_size))
              m.(m_dest)
              (m.(m_log) ++ [Malloc sizeof_Stack; Malloc sizeof_node;
                             Malloc (uwrap (initial_size * item_size))])).
Proof.
  intros H1 H2 H3. unfold initStack. run.
  rewrite H1. simpl. rewrite H2. simpl. rewrite H3. simpl.
  now rewrite <- !app_assoc.
Qed.

Lemma initStack_cases (initial_size item_size : Z) (m m' : machine) (u : unit) :
  initStack malloc initial_size item_size m = Ret u m' ->
  exists f1 f2 f3,
    malloc sizeof_Stack = Some f1 /\
    malloc sizeof_node = Some f2 /\
    malloc (uwrap (initial_size * item_size)) = Some f3.
Proof.
  unfold initStack. run.
  destruct (malloc sizeof_Stack) as [f1|]; simpl; [|discriminate].
  destruct (malloc sizeof_node) as [f2|]; simpl; [|discriminate].
  destruct (malloc (uwrap (initial_size * item_size))) as [f3|]; simpl;
    [|discriminate].
  intros _. exists f1, f2, f3. auto.
Qed.

Lemma isStackEmpty_run (m : machine) (s : Stack) (Items : table)
    (next : list table) :
  m.(m_stack) = Some s -> s.(head) = Items :: next ->
  isStackEmpty m
  = Ret (if s.(i) =? 0 then match next with [] => 1 | _ :: _ => 0 end else 0) m.
Proof.
  intros Hs Hh. unfold isStackEmpty. run. rewrite Hs, Hh.
  now destruct (i s =? 0).
Qed.

(** *** push *)

Lemma push_null (item : list byte) (m : machine) :
  m.(m_stack) = None -> push malloc item m = Exit m.
Proof. intros H. unfold push. run. now rewrite H. Qed.

Lemma push_overflow (item : list byte) (m : machine) (s : Stack) :
  m.(m_stack) = Some s ->
  s.(i) = s.(n) ->
  uwrap (s.(n) + s.(initialSize)) <= s.(i) ->
  push malloc item m = Exit m.
Proof.
  intros Hs Hfull Hov. unfold push. run. rewrite Hs.
  rewrite (proj2 (Z.eqb_eq _ _) Hfull).
  destruct (i s >=? uwrap (n s + initialSize s)) eqn:E; [reflexivity|].
  rewrite Z.geb_leb in E. apply Z.leb_gt in E. lia.
Qed.

Lemma push_room (item : list byte) (m : machine) (s : Stack) (Items : table)
    (next : list table) (src : list byte) (Items' : table) :
  m.(m_stack) = Some s ->
  s.(head) = Items :: next ->
  s.(i) <> s.(n) ->
  load item 0 s.(itemSize) = Some src ->
  store Items (uwrap (s.(i) * s.(itemSize))) src = Some Items' ->
  push malloc item m
  = Ret tt (mkMachine
              (Some (mkStack (Items' :: next) (uwrap (s.(i) + 1)) s.(n)
                             s.(itemSize) s.(initialSize)))
              m.(m_dest) m.(m_log)).
Proof.
  intros Hs Hh Hroom Hl Hst. unfold push. run. rewrite Hs.
  rewrite (proj2 (Z.eqb_neq _ _) Hroom). rewrite Hl. simpl.
  rewrite Hs, Hh, Hst. reflexivity.
Qed.

Lemma push_grow (item : list byte) (m : machine) (s : Stack)
    (f1 f2 : nat -> byte) (src : list byte) (Items' : table) :
  let n' := uwrap (s.(n) + s.(initialSize)) in
  m.(m_stack) = Some s ->
  s.(i) = s.(n) ->
  s.(i) < n' ->
  malloc sizeof_node = Some f1 ->
  malloc (uwrap (n' * s.(itemSize))) = Some f2 ->
  load item 0 s.(itemSize) = Some src ->
  store (fresh f2 (uwrap (n' * s.(itemSize)))) 0 src = Some Items' ->
  push malloc item m
  = Ret tt (mkMachine
              (Some (mkStack (Items' :: s.(head)) 1 n'
                             s.(itemSize) s.(initialSize)))
              m.(m_dest)
              (m.(m_log) ++ [Malloc sizeof_node;
                             Malloc (uwrap (n' * s.(itemSize)))])).
Proof.
  intros n' Hs Hfull Hlt H1 H2 Hl Hst. unfold push. run. rewrite Hs.
  rewrite (proj2 (Z.eqb_eq _ _) Hfull).
  fold n'.
  destruct (i s >=? n') eqn:E.
  { rewrite Z.geb_leb in E. apply Z.leb_le in E. lia. }
  rewrite H1. simpl. rewrite H2. simpl. rewrite Hs. simpl.
  rewrite Hl. simpl. change (uwrap 0) with 0. rewrite Hst. simpl.
  change (uwrap 1) with 1. now rewrite <- !app_assoc.
Qed.

(** Every completed [push] took one of the two paths above. *)
Lemma push_cases (item : list byte) (m m' : machine) (s : Stack) (u : unit) :
  m.(m_stack) = Some s ->
  push malloc item m = Ret u m' ->
  (exists Items next src Items',
      s.(head) = Items :: next /\ s.(i) <> s.(n) /\
      load item 0 s.(itemSize) = Some src /\
      store Items (uwrap (s.(i) * s.(itemSize))) src = Some Items' /\
      m' = mkMachine
             (Some (mkStack (Items' :: next) (uwrap (s.(i) + 1)) s.(n)
                            s.(itemSize) s.(initialSize)))
             m.(m_dest) m.(m_log))
  \/
  (exists f1 f2 src Items',
      let n' := uwrap (s.(n) + s.(initialSize)) in
      s.(i) = s.(n) /\ s.(i) < n' /\
      malloc sizeof_node = Some f1 /\
      malloc (uwrap (n' * s.(itemSize))) = Some f2 /\
      load item 0 s.(itemSize) = Some src /\
      store (fresh f2 (uwrap (n' * s.(itemSize)))) 0 src = Some Items' /\
      m' = mkMachine
             (Some (mkStack (Items' :: s.(head)) 1 n'
                            s.(itemSize) s.(initialSize)))
             m.(m_dest)
             (m.(m_log) ++ [Malloc sizeof_node;
                            Malloc (uwrap (n' * s.(itemSize)))])).
Proof.
  intros Hs Hrun.
  destruct (Z.eq_dec (i s) (n s)) as [Hfull|Hroom].
  - right.
    destruct (Z_lt_le_dec (i s) (uwrap (n s + initialSize s))) as [Hlt|Hov].
    2:{ rewrite (push_overflow item m s Hs Hfull Hov) in Hrun. discriminate. }
    revert Hrun. unfold push. run. rewrite Hs.
    rewrite (proj2 (Z.eqb_eq _ _) Hfull).
    destruct (i s >=? uwrap (n s + initialSize s)) eqn:E.
    { rewrite Z.geb_leb in E. apply Z.leb_le in E. lia. }
    destruct (malloc sizeof_node) as [f1|]; simpl; [|discriminate].
    destruct (malloc (uwrap (uwrap (n s + initialSize s) * itemSize s)))
      as [f2|]; simpl; [|discriminate].
    rewrite Hs. simpl.
    destruct (load item 0 (itemSize s)) as [src|]; simpl; [|discriminate].
    change (uwrap 0) with 0.
    destruct (store _ 0 src) as [Items'|] eqn:Est; simpl; [|discriminate].
    change (uwrap 1) with 1.
    intros [= _ <-]. exists f1, f2, src, Items'.
    rewrite <- !app_assoc. simpl. auto 10.
  - left. revert Hrun. unfold push. run. rewrite Hs.
    rewrite (proj2 (Z.eqb_neq _ _) Hroom).
    destruct (load item 0 (itemSize s)) as [src|]; simpl; [|discriminate].
    rewrite Hs.
    destruct (head s) as [|Items next]; [discriminate|].
    destruct (store Items _ src) as [Items'|] eqn:Est; simpl; [|discriminate].
    intros [= _ <-]. exists Items, next, src, Items'. auto 10.
Qed.

(** *** pop *)

Lemma pop_null (m : machine) : m.(m_stack) = None -> pop m = Exit m.
Proof. intros H. unfold pop. run. now rewrite H. Qed.

Lemma pop_empty (m : machine) (s : Stack) (Items : table) :
  m.(m_stack) = Some s -> s.(head) = [Items] -> s.(i) = 0 ->
  pop m = Exit m.
Proof.
  intros Hs Hh Hi. unfold pop. run. rewrite Hs.
  unfold isStackEmpty. run. rewrite Hs, Hh, Hi. reflexivity.
Qed.

Lemma pop_top (m : machine) (s : Stack) (Items : table) (next : list table)
    (src dest' : list byte) :
  let i' := uwrap (s.(i) - 1) in
  m.(m_stack) = Some s ->
  s.(head) = Items :: next ->
  s.(i) <> 0 ->
  load Items (uwrap (i' * s.(itemSize))) s.(itemSize) = Some src ->
  store m.(m_dest) 0 src = Some dest' ->
  pop m
  = Ret tt (mkMachine
              (Some (mkStack s.(head) i' s.(n) s.(itemSize) s.(initialSize)))
              dest' m.(m_log)).
Proof.
  intros i' Hs Hh Hi Hl Hst. unfold pop. run. rewrite Hs.
  unfold isStackEmpty. run. rewrite Hs.
  rewrite (proj2 (Z.eqb_neq _ _) Hi). simpl.
  rewrite Hh. fold i'. rewrite Hl. simpl. rewrite Hst. simpl.
  rewrite Hs. unfold set_i. simpl. now rewrite Hh.
Qed.

Lemma pop_descend (m : machine) (s : Stack) (old_Items Items : table)
    (next : list table) (src dest' : list byte) :
  let n' := uwrap (s.(n) - s.(initialSize)) in
  let i' := uwrap (n' - 1) in
  m.(m_stack) = Some s ->
  s.(head) = old_Items :: Items :: next ->
  s.(i) = 0 ->
  load Items (uwrap (i' * s.(itemSize))) s.(itemSize) = Some src ->
  store m.(m_dest) 0 src = Some dest' ->
  pop m
  = Ret tt (mkMachine
              (Some (mkStack (Items :: next) i' n' s.(itemSize)
                             s.(initialSize)))
              dest'
              (m.(m_log) ++ [Free (ItemsBlock old_Items); Free NodeBlock])).
Proof.
  intros n' i' Hs Hh Hi Hl Hst. unfold pop. run. rewrite Hs.
  unfold isStackEmpty. run. rewrite Hs, Hh, Hi. simpl.
  rewrite Hs. simpl. fold n'. fold i'. rewrite Hl. simpl. rewrite Hst. simpl.
  now rewrite <- !app_assoc.
Qed.

(** Every completed [pop] took one of the two paths above. *)
Lemma pop_cases (m m' : machine) (s : Stack) (u : unit) :
  m.(m_stack) = Some s ->
  pop m = Ret u m' ->
  (exists Items next src dest',
      let i' := uwrap (s.(i) - 1) in
      s.(head) = Items :: next /\ s.(i) <> 0 /\
      load Items (uwrap (i' * s.(itemSize))) s.(itemSize) = Some src /\
      store m.(m_dest) 0 src = Some dest' /\
      m' = mkMachine
             (Some (mkStack s.(head) i' s.(n) s.(itemSize) s.(initialSize)))
             dest' m.(m_log))
  \/
  (exists old_Items Items next src dest',
      let n' := uwrap (s.(n) - s.(initialSize)) in
      let i' := uwrap (n' - 1) in
      s.(head) = old_Items :: Items :: next /\ s.(i) = 0 /\
      load Items (uwrap (i' * s.(itemSize))) s.(itemSize) = Some src /\
      store m.(m_dest) 0 src = Some dest' /\
      m' = mkMachine
             (Some (mkStack (Items :: next) i' n' s.(itemSize)
                            s.(initialSize)))
             dest'
             (m.(m_log) ++ [Free (ItemsBlock old_Items); Free NodeBlock])).
Proof.
  intros Hs H.
  destruct (Z.eq_dec (i s) 0) as [Hi|Hi]; [right|left]; revert H;
    unfold pop; run; rewrite Hs; unfold isStackEmpty; run; rewrite Hs.
  - rewrite Hi. simpl.
    destruct (head s) as [|old_Items [|Items next]] eqn:Hh; simpl;
      try discriminate.
    rewrite Hs. simpl.
    destruct (load Items _ _) as [src|] eqn:El; simpl; [|discriminate].
    destruct (store (m_dest m) 0 src) as [dest'|] eqn:Est; simpl;
      [|discriminate].
    intros [= _ <-]. exists old_Items, Items, next, src, dest'.
    rewrite <- !app_assoc. simpl. auto 10.
  - rewrite (proj2 (Z.eqb_neq _ _) Hi). simpl.
    destruct (head s) as [|Items next] eqn:Hh; simpl; [discriminate|].
    destruct (load Items _ _) as [src|] eqn:El; simpl; [|discriminate].
    destruct (store (m_dest m) 0 src) as [dest'|] eqn:Est; simpl;
      [|discriminate].
    rewrite Hs. simpl. unfold set_i. simpl. rewrite Hh.
    intros [= _ <-]. exists Items, next, src, dest'. auto 10.
Qed.

End Runs.

(** ** The representation invariant *)

Lemma full_tables_cap (init isz : Z) (node_ptr : list table) (cap : Z) :
  full_tables init isz node_ptr cap -> cap = init * Zlength node_ptr.
Proof.
  revert cap. induction node_ptr as [|Items next IH]; simpl; intros cap H.
  - rewrite Zlength_nil. lia.
  - destruct H as (_ & _ & _ & H). apply IH in H.
    rewrite Zlength_cons. lia.
Qed.

Lemma Inv_n (s : Stack) : Inv s -> s.(n) = s.(initialSize) * Zlength s.(head).
Proof.
  intros (_ & _ & H). destruct (head s) as [|Items next]; [easy|].
  destruct H as (_ & _ & _ & _ & H). apply full_tables_cap in H.
  rewrite Zlength_cons. lia.
Qed.

Lemma items_of_store_below (Items Items' : table) (off : Z) (src : list byte)
    (isz : Z) (k : nat) :
  store Items off src = Some Items' -> 0 <= isz -> Z.of_nat k * isz <= off ->
  items_of Items' isz k = items_of Items isz k.
Proof.
  intros Hst Hisz. induction k as [|k IH]; intros Hk; [reflexivity|].
  rewrite Nat2Z.inj_succ in Hk.
  replace (Z.succ (Z.of_nat k) * isz) with (Z.of_nat k * isz + isz) in Hk
    by ring.
  simpl. rewrite IH by lia. f_equal.
  apply (slice_store_below _ _ _ _ _ _ Hst); lia.
Qed.

Lemma length_items_of (Items : table) (isz : Z) (k : nat) :
  length (items_of Items isz k) = k.
Proof. induction k; simpl; congruence. Qed.

Lemma items_of_succ (Items : table) (isz k : Z) :
  0 <= k ->
  items_of Items isz (Z.to_nat (k + 1))
  = slice Items (k * isz) isz :: items_of Items isz (Z.to_nat k).
Proof.
  intros Hk. rewrite Z2Nat.inj_add by lia.
  rewrite Nat.add_comm. simpl. now rewrite Z2Nat.id.
Qed.

Lemma Inv_initStack (fill : nat -> byte) (initial_size item_size : Z) :
  is_uint initial_size -> is_uint item_size ->
  Inv (mkStack [fresh fill (uwrap (initial_size * item_size))]
               0 initial_size item_size initial_size).
Proof.
  intros Ha Hb. unfold Inv, is_uint in *. simpl.
  pose proof (uwrap_range (initial_size * item_size)).
  rewrite Zlength_fresh by lia. repeat split; lia.
Qed.

Lemma contents_initStack (fill : nat -> byte) (initial_size item_size : Z) :
  contents (mkStack [fresh fill (uwrap (initial_size * item_size))]
                    0 initial_size item_size initial_size) = [].
Proof. reflexivity. Qed.

(** [push] with room in the head table. *)
Lemma push_room_Inv (s : Stack) (item : list byte) (Items : table)
    (next : list table) (src : list byte) (Items' : table) :
  Inv s ->
  s.(head) = Items :: next ->
  s.(i) <> s.(n) ->
  load item 0 s.(itemSize) = Some src ->
  store Items (uwrap (s.(i) * s.(itemSize))) src = Some Items' ->
  let s' := mkStack (Items' :: next) (uwrap (s.(i) + 1)) s.(n)
                    s.(itemSize) s.(initialSize) in
  Inv s' /\ contents s' = slice item 0 s.(itemSize) :: contents s /\
  s'.(i) = s.(i) + 1 /\
  store Items (s.(i) * s.(itemSize)) (slice item 0 s.(itemSize)) = Some Items'.
Proof.
  intros (Hisz & Hinit & HI) Hh Hroom Hl Hst s'.
  rewrite Hh in HI. destruct HI as (Hi & Hn & HL & Hfill & Hfull).
  unfold is_uint in *.
  apply load_inv in Hl. destruct Hl as (-> & _ & _ & Hitem).
  pose proof (uwrap_range (n s * itemSize s)) as HLr.
  assert (Hoff : uwrap (i s * itemSize s) = i s * itemSize s)
    by (apply uwrap_small; nia).
  rewrite Hoff in Hst.
  assert (Hlen : Zlength (slice item 0 (itemSize s)) = itemSize s)
    by (apply Zlength_slice; lia).
  pose proof (store_inv _ _ _ _ Hst) as (_ & Hfit & _). rewrite Hlen in Hfit.
  assert (Hi' : uwrap (i s + 1) = i s + 1) by (apply uwrap_small; lia).
  pose proof (slice_store_same _ _ _ _ Hst) as Hsame. rewrite Hlen in Hsame.
  subst s'. unfold Inv, contents.
  cbn [head i n itemSize initialSize]. rewrite Hi', Hh.
  rewrite (Zlength_store _ _ _ _ Hst).
  split; [|split; [|split]]; [|idtac|reflexivity|assumption].
  - repeat split; try lia; try assumption.
  - rewrite items_of_succ by lia. rewrite Hsame.
    rewrite (items_of_store_below _ _ _ _ _ _ Hst); [reflexivity|lia|].
    rewrite Z2Nat.id; lia.
Qed.

(** [push] onto a full head table. *)
Lemma push_grow_Inv (s : Stack) (item : list byte) (fill : nat -> byte)
    (src : list byte) (Items' : table) :
  let n' := uwrap (s.(n) + s.(initialSize)) in
  Inv s ->
  s.(i) = s.(n) ->
  s.(i) < n' ->
  load item 0 s.(itemSize) = Some src ->
  store (fresh fill (uwrap (n' * s.(itemSize)))) 0 src = Some Items' ->
  let s' := mkStack (Items' :: s.(head)) 1 n' s.(itemSize) s.(initialSize) in
  Inv s' /\ contents s' = slice item 0 s.(itemSize) :: contents s /\
  n' = s.(n) + s.(initialSize) /\ 0 < s.(initialSize).
Proof.
  intros n' (Hisz & Hinit & HI) Hfull Hlt Hl Hst s'.
  destruct (head s) as [|Items next] eqn:Hh; [easy|].
  destruct HI as (Hi & Hn & HL & Hfill & Hft).
  unfold is_uint in *.
  apply load_inv in Hl. destruct Hl as (-> & _ & _ & Hitem).
  assert (Hn' : n' = n s + initialSize s).
  { subst n'. destruct (Z_le_gt_dec (n s + initialSize s) UINT_MAX).
    - apply uwrap_small. lia.
    - rewrite uwrap_add_carry in Hlt |- *; unfold UINT_MAX in *; lia. }
  assert (Hn'r : n' <= UINT_MAX) by (subst n'; apply uwrap_range).
  assert (Hpos : 0 < initialSize s) by lia.
  assert (Hnpos : 0 < n s).
  { pose proof (full_tables_cap _ _ _ _ Hft) as Hc.
    pose proof (Zlength_nonneg next). nia. }
  pose proof (uwrap_range (n s * itemSize s)) as HLr.
  assert (HLs : Zlength Items = n s * itemSize s).
  { rewrite HL. apply uwrap_small. rewrite Hfull in Hfill. nia. }
  pose proof (uwrap_range (n' * itemSize s)) as HLr'.
  assert (Hlen : Zlength (slice item 0 (itemSize s)) = itemSize s)
    by (apply Zlength_slice; lia).
  pose proof (store_inv _ _ _ _ Hst) as (_ & Hfit & _).
  rewrite Hlen, Zlength_fresh in Hfit by lia.
  pose proof (slice_store_same _ _ _ _ Hst) as Hsame. rewrite Hlen in Hsame.
  subst s'. unfold Inv, contents.
  cbn [head i n itemSize initialSize full_tables tables_items].
  rewrite Hh.
  rewrite (Zlength_store _ _ _ _ Hst), Zlength_fresh by lia.
  replace (n' - initialSize s) with (n s) by lia.
  split; [|split; [|split]]; [|idtac|assumption|assumption].
  - repeat split; try lia; try assumption.
  - change (Z.to_nat 1) with 1%nat. cbn [items_of app].
    change (Z.of_nat 0 * itemSize s) with 0.
    rewrite Hsame, Hfull. reflexivity.
Qed.

(** [pop] inside the head table. *)
Lemma pop_top_Inv (s : Stack) (Items : table) (next : list table) :
  Inv s ->
  s.(head) = Items :: next ->
  s.(i) <> 0 ->
  let i' := uwrap (s.(i) - 1) in
  let s' := mkStack s.(head) i' s.(n) s.(itemSize) s.(initialSize) in
  i' = s.(i) - 1 /\
  uwrap (i' * s.(itemSize)) = i' * s.(itemSize) /\
  load Items (i' * s.(itemSize)) s.(itemSize)
  = Some (slice Items (i' * s.(itemSize)) s.(itemSize)) /\
  Inv s' /\
  contents s = slice Items (i' * s.(itemSize)) s.(itemSize) :: contents s'.
Proof.
  intros (Hisz & Hinit & HI) Hh Hi0 i' s'.
  rewrite Hh in HI. destruct HI as (Hi & Hn & HL & Hfill & Hft).
  unfold is_uint in *.
  assert (Hi' : i' = i s - 1) by (subst i'; apply uwrap_small; lia).
  pose proof (uwrap_range (n s * itemSize s)) as HLr.
  split; [assumption|]. rewrite Hi'.
  split; [apply uwrap_small; nia|].
  split; [apply load_Some; nia|].
  subst s'. unfold Inv, contents.
  cbn [head i n itemSize initialSize]. rewrite Hh, Hi'.
  split.
  - repeat split; try lia; try assumption.
  - replace (i s) with (i s - 1 + 1) at 1 by lia.
    now rewrite items_of_succ by lia.
Qed.

(** [pop] with an empty head table over a full one. *)
Lemma pop_descend_Inv (s : Stack) (old_Items Items : table)
    (next : list table) :
  Inv s ->
  s.(head) = old_Items :: Items :: next ->
  s.(i) = 0 ->
  let n' := uwrap (s.(n) - s.(initialSize)) in
  let i' := uwrap (n' - 1) in
  let s' := mkStack (Items :: next) i' n' s.(itemSize) s.(initialSize) in
  n' = s.(n) - s.(initialSize) /\ i' = n' - 1 /\
  Zlength Items = n' * s.(itemSize) /\
  uwrap (i' * s.(itemSize)) = i' * s.(itemSize) /\
  load Items (i' * s.(itemSize)) s.(itemSize)
  = Some (slice Items (i' * s.(itemSize)) s.(itemSize)) /\
  Inv s' /\
  contents s = slice Items (i' * s.(itemSize)) s.(itemSize) :: contents s'.
Proof.
  intros (Hisz & Hinit & HI) Hh Hi0 n' i' s'.
  rewrite Hh in HI. destruct HI as (Hi & Hn & HL & Hfill & Hft).
  simpl in Hft. destruct Hft as (Hcap & HL2 & Hcap2 & Hft).
  unfold is_uint in *.
  assert (Hn' : n' = n s - initialSize s) by (subst n'; apply uwrap_small; lia).
  assert (Hi' : i' = n' - 1) by (subst i'; apply uwrap_small; lia).
  rewrite <- Hn' in *.
  split; [reflexivity|]. split; [assumption|]. split; [assumption|].
  rewrite Hi'.
  split; [apply uwrap_small; nia|].
  split; [apply load_Some; nia|].
  subst s'. unfold Inv, contents.
  cbn [head i n itemSize initialSize tables_items]. rewrite Hh, Hi0, Hi'.
  split.
  - repeat split; try lia; try assumption.
    rewrite HL2. symmetry. apply uwrap_small. nia.
  - change (Z.to_nat 0) with 0%nat. cbn [items_of app].
    rewrite <- Hn'. cbn [tables_items].
    replace n' with (n' - 1 + 1) at 1 by lia.
    now rewrite items_of_succ by lia.
Qed.

Lemma store_dest (dest src dest' : list byte) :
  store dest 0 src = Some dest' ->
  dest' = src ++ skipn (length src) dest.
Proof.
  intros H. apply store_inv in H. destruct H as (_ & _ & ->).
  simpl. now rewrite Zlength_correct, Nat2Z.id.
Qed.

(** The two paths of [push] on a well-formed stack. *)
Lemma push_runs (malloc : Z -> option (nat -> byte)) (s : Stack)
    (m : machine) (item : list byte) :
  Inv s ->
  m.(m_stack) = Some s ->
  s.(itemSize) <= Zlength item ->
  (s.(i) = s.(n) ->
   s.(n) < uwrap (s.(n) + s.(initialSize)) ->
   (s.(n) + s.(initialSize)) * s.(itemSize) <= UINT_MAX ->
   forall f1 f2,
     malloc sizeof_node = Some f1 ->
     malloc ((s.(n) + s.(initialSize)) * s.(itemSize)) = Some f2 ->
     exists Items',
       store (fresh f2 ((s.(n) + s.(initialSize)) * s.(itemSize))) 0
             (slice item 0 s.(itemSize)) = Some Items' /\
       push malloc item m
       = Ret tt (mkMachine
                   (Some (mkStack (Items' :: s.(head)) 1
                                  (s.(n) + s.(initialSize))
                                  s.(itemSize) s.(initialSize)))
                   m.(m_dest)
                   (m.(m_log)
                    ++ [Malloc sizeof_node;
                        Malloc ((s.(n) + s.(initialSize)) * s.(itemSize))])))
  /\
  (s.(i) <> s.(n) ->
   s.(n) * s.(itemSize) <= UINT_MAX ->
   exists Items next Items',
     s.(head) = Items :: next /\
     store Items (s.(i) * s.(itemSize)) (slice item 0 s.(itemSize))
     = Some Items' /\
     push malloc item m
     = Ret tt (mkMachine
                 (Some (mkStack (Items' :: next) (s.(i) + 1) s.(n)
                                s.(itemSize) s.(initialSize)))
                 m.(m_dest) m.(m_log))).
Proof.
  intros HI Hs Hitem.
  pose proof HI as (Hisz & Hinit & HI').
  destruct (head s) as [|Items next] eqn:Hh; [easy|].
  destruct HI' as (Hi & Hn & HL & Hfill & Hft).
  unfold is_uint in *.
  assert (Hl : load item 0 (itemSize s) = Some (slice item 0 (itemSize s)))
    by (apply load_Some; lia).
  assert (Hlen : Zlength (slice item 0 (itemSize s)) = itemSize s)
    by (apply Zlength_slice; lia).
  split.
  - intros Hfull Hlt Hbytes f1 f2 H1 H2.
    assert (Hn' : uwrap (n s + initialSize s) = n s + initialSize s).
    { destruct (Z_le_gt_dec (n s + initialSize s) UINT_MAX).
      - apply uwrap_small. lia.
      - rewrite uwrap_add_carry in Hlt |- *; unfold UINT_MAX in *; lia. }
    assert (Hb : uwrap ((n s + initialSize s) * itemSize s)
                 = (n s + initialSize s) * itemSize s)
      by (apply uwrap_small; nia).
    destruct (store_Some (fresh f2 ((n s + initialSize s) * itemSize s)) 0
                (slice item 0 (itemSize s))) as (Items' & Hst).
    { lia. }
    { rewrite Hlen, Zlength_fresh by nia. nia. }
    exists Items'. split; [assumption|].
    pose proof (push_grow malloc item m s f1 f2 (slice item 0 (itemSize s))
                  Items' Hs Hfull) as Hrun.
    cbv zeta in Hrun. rewrite Hn', Hb, Hh in Hrun. rewrite Hn' in Hlt.
    apply Hrun; auto. lia.
  - intros Hroom Hbytes.
    assert (HLs : Zlength Items = n s * itemSize s)
      by (rewrite HL; apply uwrap_small; nia).
    assert (Hoff : uwrap (i s * itemSize s) = i s * itemSize s)
      by (apply uwrap_small; nia).
    destruct (store_Some Items (i s * itemSize s) (slice item 0 (itemSize s)))
      as (Items' & Hst).
    { nia. }
    { rewrite Hlen, HLs. nia. }
    exists Items, next, Items'. split; [reflexivity|]. split; [assumption|].
    pose proof (push_room malloc item m s Items next
                  (slice item 0 (itemSize s)) Items' Hs Hh Hroom Hl) as Hrun.
    rewrite Hoff in Hrun. rewrite (uwrap_small (i s + 1)) in Hrun by lia.
    now apply Hrun.
Qed.


(** ** One call on a well-formed stack *)

Section Steps.

Variable malloc : Z -> option (nat -> byte).

Lemma push_step (item : list byte) (m m' : machine) (s : Stack) (u : unit) :
  m.(m_stack) = Some s -> Inv s ->
  push malloc item m = Ret u m' ->
  exists s',
    m'.(m_stack) = Some s' /\ Inv s' /\
    contents s' = slice item 0 s.(itemSize) :: contents s /\
    s'.(itemSize) = s.(itemSize) /\ s'.(initialSize) = s.(initialSize) /\
    m'.(m_dest) = m.(m_dest).
Proof.
  intros Hs HI Hrun.
  destruct (push_cases malloc item m m' s u Hs Hrun)
    as [(Items & next & src & Items' & Hh & Hroom & Hl & Hst & ->)
       |(f1 & f2 & src & Items' & Hfull & Hlt & _ & _ & Hl & Hst & ->)].
  - destruct (push_room_Inv s item Items next src Items' HI Hh Hroom Hl Hst)
      as (HI' & Hc & _).
    eexists. split; [reflexivity|]. auto.
  - destruct (push_grow_Inv s item f2 src Items' HI Hfull Hlt Hl Hst)
      as (HI' & Hc & _).
    eexists. split; [reflexivity|]. auto.
Qed.

Lemma pop_step (m m' : machine) (s : Stack) (u : unit) :
  m.(m_stack) = Some s -> Inv s ->
  pop m = Ret u m' ->
  exists s' x,
    m'.(m_stack) = Some s' /\ Inv s' /\
    contents s = x :: contents s' /\
    m'.(m_dest) = x ++ skipn (length x) m.(m_dest) /\
    Zlength x = s.(itemSize) /\
    s'.(itemSize) = s.(itemSize) /\ s'.(initialSize) = s.(initialSize).
Proof.
  intros Hs HI Hrun.
  destruct (pop_cases m m' s u Hs Hrun)
    as [(Items & next & src & dest' & Hh & Hi & Hl & Hst & ->)
       |(old_Items & Items & next & src & dest' & Hh & Hi & Hl & Hst & ->)].
  - destruct (pop_top_Inv s Items next HI Hh Hi)
      as (_ & Hoff & Hl' & HI' & Hc).
    rewrite Hoff, Hl' in Hl. injection Hl as <-.
    apply load_inv in Hl'. destruct Hl' as (_ & H1 & H2 & H3).
    eexists. eexists. split; [reflexivity|]. cbn [m_dest].
    split; [exact HI'|]. split; [exact Hc|].
    split; [now apply store_dest|].
    split; [now apply Zlength_slice|]. auto.
  - destruct (pop_descend_Inv s old_Items Items next HI Hh Hi)
      as (_ & _ & _ & Hoff & Hl' & HI' & Hc).
    rewrite Hoff, Hl' in Hl. injection Hl as <-.
    apply load_inv in Hl'. destruct Hl' as (_ & H1 & H2 & H3).
    eexists. eexists. split; [reflexivity|]. cbn [m_dest].
    split; [exact HI'|]. split; [exact Hc|].
    split; [now apply store_dest|].
    split; [now apply Zlength_slice|]. auto.
Qed.

Lemma contents_nil_iff (s : Stack) :
  Inv s ->
  (contents s = [] <-> s.(i) = 0 /\ exists Items, s.(head) = [Items]).
Proof.
  intros (Hisz & Hinit & HI). unfold contents.
  destruct (head s) as [|Items next] eqn:Hh; [easy|].
  destruct HI as (Hi & Hn & HL & Hfill & Hft).
  split.
  - intros Hc. apply app_eq_nil in Hc. destruct Hc as (Hc1 & Hc2).
    apply (f_equal (@length _)) in Hc1. rewrite length_items_of in Hc1.
    simpl in Hc1. split; [lia|].
    destruct next as [|Items2 next]; [eauto|].
    simpl in Hft, Hc2. destruct Hft as (Hcap & _).
    apply app_eq_nil in Hc2. destruct Hc2 as (Hc2 & _).
    apply (f_equal (@length _)) in Hc2. rewrite length_items_of in Hc2.
    simpl in Hc2. lia.
  - intros (Hi0 & Items0 & [= -> ->]). now rewrite Hi0.
Qed.

Lemma isStackEmpty_contents (m : machine) (s : Stack) :
  m.(m_stack) = Some s -> Inv s ->
  isStackEmpty m = Ret (match contents s with [] => 1 | _ :: _ => 0 end) m.
Proof.
  intros Hs HI. pose proof (contents_nil_iff s HI) as Hnil.
  destruct HI as (_ & _ & HI).
  destruct (head s) as [|Items next] eqn:Hh; [easy|].
  rewrite (isStackEmpty_run m s Items next Hs Hh). f_equal.
  destruct (contents s) as [|x rest].
  - destruct (proj1 Hnil eq_refl) as (-> & Items0 & [= _ ->]). reflexivity.
  - destruct (i s =? 0) eqn:E; [|reflexivity].
    destruct next; [|reflexivity].
    apply Z.eqb_eq in E.
    assert (x :: rest = []) by (apply Hnil; eauto). discriminate.
Qed.

Lemma pop_returns (m : machine) (s : Stack) :
  m.(m_stack) = Some s -> Inv s ->
  contents s <> [] ->
  s.(itemSize) <= Zlength m.(m_dest) ->
  exists m', pop m = Ret tt m'.
Proof.
  intros Hs HI Hne Hdest. pose proof (contents_nil_iff s HI) as Hnil.
  destruct (head s) as [|Items next] eqn:Hh.
  { destruct HI as (_ & _ & HI). now rewrite Hh in HI. }
  destruct (Z.eq_dec (i s) 0) as [Hi|Hi].
  - destruct next as [|Items2 next].
    { exfalso. apply Hne, Hnil. eauto. }
    destruct (pop_descend_Inv s Items Items2 next HI Hh Hi)
      as (_ & _ & _ & Hoff & Hl' & _).
    pose proof (load_inv _ _ _ _ Hl') as (_ & H1 & H2 & H3).
    destruct (store_Some m.(m_dest) 0
                (slice Items2
                   (uwrap (uwrap (n s - initialSize s) - 1) * itemSize s)
                   (itemSize s))) as (dest' & Hst).
    { lia. }
    { rewrite Zlength_slice by lia. lia. }
    eexists. eapply pop_descend; eauto. rewrite Hoff. exact Hl'.
  - destruct (pop_top_Inv s Items next HI Hh Hi) as (_ & Hoff & Hl' & _).
    pose proof (load_inv _ _ _ _ Hl') as (_ & H1 & H2 & H3).
    destruct (store_Some m.(m_dest) 0
                (slice Items (uwrap (i s - 1) * itemSize s) (itemSize s)))
      as (dest' & Hst).
    { lia. }
    { rewrite Zlength_slice by lia. lia. }
    eexists. eapply pop_top; eauto. rewrite Hoff. exact Hl'.
Qed.

(** What holds of every stack a client can hold. *)
Lemma reach_Inv (initial_size item_size : Z) (pushed : list (list byte))
    (s : Stack) :
  reach malloc initial_size item_size pushed s ->
  Inv s /\ contents s = pushed /\
  s.(itemSize) = item_size /\ s.(initialSize) = initial_size.
Proof.
  induction 1 as [m m' s Ha Hb Hrun Hs
                 |pushed s s' item m m' Hr IH Hs Hrun Hs'
                 |pushed s s' m m' Hr IH Hs Hrun Hs'].
  - destruct (initStack_cases malloc _ _ _ _ _ Hrun) as (f1 & f2 & f3 & H1 & H2 & H3).
    rewrite (initStack_run malloc _ _ m f1 f2 f3 H1 H2 H3) in Hrun.
    injection Hrun as <-. injection Hs as <-.
    split; [now apply Inv_initStack|]. auto.
  - destruct IH as (HI & Hc & Hisz & Hinit).
    destruct (push_step item m m' s tt Hs HI Hrun)
      as (s2 & Hs2 & HI2 & Hc2 & E1 & E2 & _).
    rewrite Hs' in Hs2. injection Hs2 as <-.
    split; [assumption|]. rewrite Hc2, Hc, Hisz. split; [reflexivity|]. lia.
  - destruct IH as (HI & Hc & Hisz & Hinit).
    destruct (pop_step m m' s tt Hs HI Hrun)
      as (s2 & x & Hs2 & HI2 & Hc2 & _ & _ & E1 & E2).
    rewrite Hs' in Hs2. injection Hs2 as <-.
    split; [assumption|]. rewrite <- Hc, Hc2. split; [reflexivity|]. lia.
Qed.

End Steps.

(** ** The sample stacks are stacks a client can hold *)

Lemma reach_stack0 : reach calloc_like 2 4 [] stack0.
Proof.
  apply reach_init
    with (m := blank)
         (m' := mkMachine (Some stack0) (word Byte.x00)
                          [Malloc 24; Malloc 16; Malloc 8]);
    try reflexivity; unfold is_uint, UINT_MAX; lia.
Qed.

Lemma reach_stack2 :
  reach calloc_like 2 4 [word Byte.x02; word Byte.x01] stack2.
Proof.
  apply reach_push
    with (item := word Byte.x02)
         (s := mkStack [word Byte.x01 ++ repeat Byte.x00 4] 1 2 4 2)
         (m := machine_of (mkStack [word Byte.x01 ++ repeat Byte.x00 4] 1 2 4 2))
         (m' := machine_of stack2);
    try reflexivity.
  apply reach_push
    with (item := word Byte.x01) (s := stack0)
         (m := machine_of stack0)
         (m' := machine_of (mkStack [word Byte.x01 ++ repeat Byte.x00 4] 1 2 4 2));
    try reflexivity.
  exact reach_stack0.
Qed.

Lemma reach_stack3 :
  reach calloc_like 2 4 [word Byte.x03; word Byte.x02; word Byte.x01] stack3.
Proof.
  apply reach_push
    with (item := word Byte.x03) (s := stack2) (m := machine_of stack2)
         (m' := mkMachine (Some stack3) (word Byte.x00) [Malloc 16; Malloc 16]);
    try reflexivity.
  exact reach_stack2.
Qed.

Lemma reach_stack3' :
  reach calloc_like 2 4 [word Byte.x02; word Byte.x01] stack3'.
Proof.
  apply (reach_pop calloc_like 2 4
           [word Byte.x03; word Byte.x02; word Byte.x01] stack3 stack3'
           (machine_of stack3)
           (mkMachine (Some stack3') (word Byte.x03) []));
    try reflexivity.
  exact reach_stack3.
Qed.

Lemma reach_stack_zero : reach calloc_like 0 4 [] stack_zero.
Proof.
  apply reach_init
    with (m := blank)
         (m' := mkMachine (Some stack_zero) (word Byte.x00)
                          [Malloc 24; Malloc 16; Malloc 0]);
    try reflexivity; unfold is_uint, UINT_MAX; lia.
Qed.

Lemma reach_stack_wrapped : reach calloc_like 2147483648 2 [] stack_wrapped.

Proof.
  apply reach_init
    with (m := blank)
         (m' := mkMachine (Some stack_wrapped) (word Byte.x00)
                          [Malloc 24; Malloc 16; Malloc 0]);
    try reflexivity; unfold is_uint, UINT_MAX; lia.
Qed.

(** Items of no byte fill a table of no byte, one place at a time. *)
Lemma reach_items_of_no_byte (initial_size k : Z) :
  0 <= k <= initial_size -> initial_size <= UINT_MAX ->
  reach calloc_like initial_size 0 (repeat [] (Z.to_nat k))
        (mkStack [[]] k initial_size 0 initial_size).
Proof.
  intros (Hk0 & Hka) Ha.
  assert (Ha0 : 0 <= initial_size) by lia. revert Hka.
  pattern k.
 apply natlike_ind; [| |assumption].
  - intros _.
    apply reach_init
      with (m := blank)
           (m' := mkMachine (Some (mkStack [[]] 0 initial_size 0 initial_size))
                            (word Byte.x00)
                            [Malloc sizeof_Stack; Malloc sizeof_node;
                             Malloc 0]);
      try reflexivity; unfold is_uint, UINT_MAX in *; try lia.
    rewrite (initStack_run calloc_like initial_size 0 blank
               (fun _ => Byte.x00) (fun _ => Byte.x00) (fun _ => Byte.x00)
               eq_refl eq_refl eq_refl).
    rewrite Z.mul_0_r. reflexivity.
  - intros j Hj IH Hja.
    rewrite Z2Nat.inj_succ by assumption.
    change (repeat [] (S (Z.to_nat j)))
      with (slice (@nil byte) 0 0 :: repeat [] (Z.to_nat j)).
    apply reach_push
      with (s := mkStack [[]] j initial_size 0 initial_size)
           (m := machine_of (mkStack [[]] j initial_size 0 initial_size))
           (m' := machine_of
                    (mkStack [[]] (Z.succ j) initial_size 0 initial_size));
      [apply IH; lia|reflexivity| |reflexivity].
    rewrite (push_room calloc_like []
               (machine_of (mkStack [[]] j initial_size 0 initial_size))
               (mkStack [[]] j initial_size 0 initial_size)
               [] [] [] [] eq_refl eq_refl);
      cbn [i n itemSize initialSize head m_dest m_log machine_of].

    + rewrite uwrap_small by (unfold UINT_MAX in *; lia). reflexivity.
    + lia.
    + reflexivity.
    + rewrite Z.mul_0_r. reflexivity.
Qed.

Lemma reach_stack_at_limit :
  reach calloc_like 2147483648 0 (repeat [] (Z.to_nat 2147483648))
        stack_at_limit.
Proof.
  apply (reach_items_of_no_byte 2147483648 2147483648).
  - split; discriminate.
  - discriminate.
Qed.

(** ** The chain of tables *)

Lemma full_tables_nth (init isz : Z) (node_ptr : list table) (cap : Z)
    (k : nat) (Items : table) :
  full_tables init isz node_ptr cap ->
  nth_error (rev node_ptr) k = Some Items ->
  Zlength Items = init * (Z.of_nat k + 1) * isz /\
  init * (Z.of_nat k + 1) * isz <= UINT_MAX.
Proof.
  revert cap. induction node_ptr as [|T next IH]; intros cap Hft Hk.
  - destruct k; discriminate.
  - pose proof (full_tables_cap _ _ _ _ Hft) as Hcap.
    simpl in Hft. destruct Hft as (_ & HL & Hle & Hft).
    simpl in Hk. rewrite Zlength_cons, Zlength_correct in Hcap.
    destruct (Nat.lt_ge_cases k (length (rev next))) as [Hlt|Hge].
    + rewrite nth_error_app1 in Hk by assumption. eauto.
    + rewrite nth_error_app2 in Hk by assumption.
      rewrite length_rev in *.
      destruct (k - length next)%nat as [|j] eqn:E; simpl in Hk.
      * injection Hk as <-.
        replace (Z.of_nat k) with (Z.of_nat (length next)) by lia.
        replace (init * (Z.of_nat (length next) + 1)) with cap by lia.
        auto.
      * destruct j; discriminate.
Qed.

Lemma Inv_nth (s : Stack) (k : nat) (Items : table) :
  Inv s ->
  nth_error (rev s.(head)) k = Some Items ->
  Zlength Items = uwrap (s.(initialSize) * (Z.of_nat k + 1) * s.(itemSize)) /\
  ((S k < length s.(head))%nat ->
   Zlength Items = s.(initialSize) * (Z.of_nat k + 1) * s.(itemSize)).
Proof.
  intros HI Hk. pose proof (Inv_n s HI) as Hn.
  destruct HI as (Hisz & Hinit & HI).
  destruct (head s) as [|T next] eqn:Hh; [easy|].
  destruct HI as (_ & _ & HL & _ & Hft).
  simpl in Hk. rewrite Zlength_cons, Zlength_correct in Hn.
  destruct (Nat.lt_ge_cases k (length (rev next))) as [Hlt|Hge].
  - rewrite nth_error_app1 in Hk by assumption.
    destruct (full_tables_nth _ _ _ _ _ _ Hft Hk) as (E & Hle).
    split; [|intros _; exact E].
    rewrite E. symmetry. apply uwrap_small. rewrite <- E in Hle |- *.
    split; [apply Zlength_nonneg|assumption].
  - rewrite nth_error_app2 in Hk by assumption.
    rewrite length_rev in *.
    destruct (k - length next)%nat as [|j] eqn:E; simpl in Hk.
    + injection Hk as <-. split; [|cbn [length]; intros; exfalso; lia].
      rewrite HL, Hn. replace k with (length next) by lia.
      now rewrite <- Z.add_1_r.
    + destruct j; discriminate.
Qed.

(** C5. In every stack made by [initStack] and changed by completed
    calls of [push] and [pop], the chain has at least one table, the
    growth increment is the initial size, the size of the head table is
    the initial size times the number of tables (so that it never comes
    from a wrap-around), and the table at position [k] from the bottom
    was allocated for [initial_size * (k + 1)] items. *)
Theorem chain_capacities (malloc : Z -> option (nat -> byte))
    (initial_size item_size : Z) (s : Stack) :
  reachable malloc initial_size item_size s ->
  s.(head) <> [] /\
  s.(initialSize) = initial_size /\
  s.(n) = initial_size * Zlength s.(head) /\
  s.(n) <= UINT_MAX /\
  forall (k : nat) (Items : table),
    nth_error (rev s.(head)) k = Some Items ->
    Zlength Items = uwrap (initial_size * (Z.of_nat k + 1) * item_size) /\
    ((S k < length s.(head))%nat ->
     Zlength Items = initial_size * (Z.of_nat k + 1) * item_size).
Proof.
  intros (pushed & Hr).
  destruct (reach_Inv _ _ _ _ _ Hr) as (HI & _ & Hisz & Hinit).
  pose proof (Inv_n s HI) as Hn.
  split.
  { destruct HI as (_ & _ & HI). now destruct (head s). }
  split; [assumption|]. split; [now rewrite <- Hinit|].
  split.
  { destruct HI as (_ & _ & HI). destruct (head s); [easy|]. tauto. }
  intros k Items Hk. rewrite <- Hinit, <- Hisz. now apply Inv_nth.
Qed.

Lemma chain_capacities_witness :
  reachable calloc_like 2 4 stack3 /\
  stack3.(head) <> [] /\
  stack3.(initialSize) = 2 /\
  stack3.(n) = 2 * Zlength stack3.(head) /\
  stack3.(n) <= UINT_MAX /\
  forall (k : nat) (Items : table),
    nth_error (rev stack3.(head)) k = Some Items ->
    Zlength Items = uwrap (2 * (Z.of_nat k + 1) * 4) /\
    ((S k < length stack3.(head))%nat ->
     Zlength Items = 2 * (Z.of_nat k + 1) * 4).
Proof.
  split.
  - eexists. exact reach_stack3.
  - apply (chain_capacities calloc_like 2 4 stack3).
    eexists. exact reach_stack3.
Defined.

(** ** Emptiness *)

(** C6. [isStackEmpty] changes nothing and answers 1 exactly when [i] is
    0 and the chain has one table; on a stack a client can hold this is
    exactly when no pushed item is left to pop. *)
Theorem isStackEmpty_iff (malloc : Z -> option (nat -> byte))
    (initial_size item_size : Z) (pushed : list (list byte)) (s : Stack)
    (m : machine) :
  reach malloc initial_size item_size pushed s ->
  m.(m_stack) = Some s ->
  exists e,
    isStackEmpty m = Ret e m /\
    (e = 1 \/ e = 0) /\
    (e = 1 <-> s.(i) = 0 /\ Zlength s.(head) = 1) /\
    (e = 1 <-> pushed = []).
Proof.
  intros Hr Hs.
  destruct (reach_Inv _ _ _ _ _ Hr) as (HI & Hc & _).
  pose proof (contents_nil_iff s HI) as Hnil.
  rewrite (isStackEmpty_contents m s Hs HI). rewrite Hc in *.
  assert (Hone : (exists Items, head s = [Items]) <-> Zlength (head s) = 1).
  { split.
    - intros (Items & ->). reflexivity.
    - destruct (head s) as [|T [|T' l]]; try discriminate; eauto.
      rewrite !Zlength_cons. pose proof (Zlength_nonneg l). lia. }
  destruct pushed as [|x rest]; eexists; (split; [reflexivity|]).
  - split; [auto|]. split; [|tauto].
    split; [intros _|reflexivity].
    destruct (proj1 Hnil eq_refl) as (Hi & Hh). tauto.
  - split; [auto|]. split; split; try discriminate.
    intros (Hi & Hh). exfalso.
    assert (x :: rest = []) by (apply Hnil; tauto). discriminate.
Qed.

Lemma isStackEmpty_iff_witness :
  reach calloc_like 2 4 [word Byte.x02; word Byte.x01] stack3' /\
  (machine_of stack3').(m_stack) = Some stack3' /\
  exists e,
    isStackEmpty (machine_of stack3') = Ret e (machine_of stack3') /\
    (e = 1 \/ e = 0) /\
    (e = 1 <-> stack3'.(i) = 0 /\ Zlength stack3'.(head) = 1) /\
    (e = 1 <-> [word Byte.x02; word Byte.x01] = []).
Proof.
  split; [exact reach_stack3'|]. split; [reflexivity|].
  apply (isStackEmpty_iff calloc_like 2 4 _ stack3' (machine_of stack3')
           reach_stack3' eq_refl).
Defined.

(** ** The overflow guard of push *)

Lemma push_never_exits_past_guard (malloc : Z -> option (nat -> byte))
    (item : list byte) (m : machine) (s : Stack) :
  m.(m_stack) = Some s ->
  (s.(i) = s.(n) ->
   s.(i) < uwrap (s.(n) + s.(initialSize)) /\
   malloc sizeof_node <> None /\
   malloc (uwrap (uwrap (s.(n) + s.(initialSize)) * s.(itemSize))) <> None) ->
  forall m', push malloc item m <> Exit m'.
Proof.
  intros Hs Hfull m'.
  destruct (Z.eq_dec (i s) (n s)) as [E|E].
  - destruct (Hfull E) as (Hlt & H1 & H2).
    unfold push. run. rewrite Hs. rewrite (proj2 (Z.eqb_eq _ _) E).
    destruct (i s >=? uwrap (n s + initialSize s)) eqn:G.
    { rewrite Z.geb_leb in G. apply Z.leb_le in G. lia. }
    destruct (malloc sizeof_node) as [f1|]; [|easy].
    destruct (malloc (uwrap (uwrap (n s + initialSize s) * itemSize s)))
      as [f2|]; [|easy].
    simpl. rewrite Hs. branches.
  - unfold push. run. rewrite Hs. rewrite (proj2 (Z.eqb_neq _ _) E).
    branches.
Qed.

(** Past the guard, [push] exits only when the allocator refuses the node
    or the table, and then the stack is as it was. *)
Lemma push_refused (malloc : Z -> option (nat -> byte)) (item : list byte)
    (m : machine) (s : Stack) :
  m.(m_stack) = Some s ->
  s.(i) = s.(n) ->
  s.(i) < uwrap (s.(n) + s.(initialSize)) ->
  malloc sizeof_node = None \/
  malloc (uwrap (uwrap (s.(n) + s.(initialSize)) * s.(itemSize))) = None ->
  exists m',
    push malloc item m = Exit m' /\
    m'.(m_stack) = Some s /\ m'.(m_dest) = m.(m_dest).
Proof.
  intros Hs Hfull Hlt Hno.
  unfold push. run. rewrite Hs. rewrite (proj2 (Z.eqb_eq _ _) Hfull).
  destruct (i s >=? uwrap (n s + initialSize s)) eqn:G.
  { rewrite Z.geb_leb in G. apply Z.leb_le in G. lia. }
  destruct (malloc sizeof_node) as [f1|] eqn:E1; simpl.
  - destruct (malloc (uwrap (uwrap (n s + initialSize s) * itemSize s)))
      as [f2|] eqn:E2; simpl.
    + destruct Hno; discriminate.
    + eexists. split; [reflexivity|]. auto.
  - eexists. split; [reflexivity|]. auto.
Qed.

(** C7. The size of the head table of a stack a client can hold is the
    initial size times the number of tables: it never comes from a
    wrap-around.  On a full head table, [push] leaves by [exit(0)] with
    the machine as it was whenever the incremented size, computed modulo
    [UINT_MAX + 1], does not exceed the old one.  Otherwise the sum did
    not wrap and is the size that is used: the table is asked of the
    allocator for that many items; when the allocator serves the node
    and the table and the item fits in the table, [push] returns, with
    the new table at the head of the chain, the sum installed as the size
    and one item in the table; the call leaves by [exit(0)] only when
    the allocator refuses, and then the stack is as it was. *)
Theorem push_overflow_guard (malloc : Z -> option (nat -> byte))
    (initial_size item_size : Z) (pushed : list (list byte)) (s : Stack)
    (m : machine) (item : list byte) :
  reach malloc initial_size item_size pushed s ->
  m.(m_stack) = Some s ->
  (s.(n) = initial_size * Zlength s.(head) /\ s.(n) <= UINT_MAX /\
   s.(initialSize) = initial_size) /\
  (s.(i) = s.(n) ->
   let n' := uwrap (s.(n) + s.(initialSize)) in
   (n' <= s.(n) -> push malloc item m = Exit m) /\
   (s.(n) < n' ->
    n' = s.(n) + s.(initialSize) /\ n' <= UINT_MAX /\
    (forall f1 f2,
        malloc sizeof_node = Some f1 ->
        malloc (uwrap (n' * s.(itemSize))) = Some f2 ->
        s.(itemSize) <= Zlength item ->
        s.(itemSize) <= uwrap (n' * s.(itemSize)) ->
        exists Items',
          push malloc item m
          = Ret tt (mkMachine
                      (Some (mkStack (Items' :: s.(head)) 1 n'
                                     s.(itemSize) s.(initialSize)))
                      m.(m_dest)
                      (m.(m_log)
                       ++ [Malloc sizeof_node;
                           Malloc (uwrap (n' * s.(itemSize)))])) /\
          Zlength Items' = uwrap (n' * s.(itemSize)) /\
          slice Items' 0 s.(itemSize) = slice item 0 s.(itemSize)) /\
    (malloc sizeof_node = None \/
     malloc (uwrap (n' * s.(itemSize))) = None ->
     exists m',
       push malloc item m = Exit m' /\
       m'.(m_stack) = Some s /\ m'.(m_dest) = m.(m_dest)) /\
    (malloc sizeof_node <> None ->
     malloc (uwrap (n' * s.(itemSize))) <> None ->
     forall m', push malloc item m <> Exit m') /\
    (forall u m', push malloc item m = Ret u m' ->
                  exists s', m'.(m_stack) = Some s' /\ s'.(n) = n'))).
Proof.
  intros Hr Hs.
  destruct (reach_Inv _ _ _ _ _ Hr) as (HI & _ & _ & Hinit).
  pose proof (Inv_n s HI) as Hn.
  assert (Hrange : 0 <= n s <= UINT_MAX /\ is_uint (initialSize s) /\
                   is_uint (itemSize s)).
  { destruct HI as (Hisz & Hin & HI). destruct (head s); [easy|].
    unfold is_uint in *. lia. }
  destruct Hrange as (Hnr & Hin & Hisz). unfold is_uint in Hin, Hisz.
  split.
  { rewrite <- Hinit. split; [assumption|]. split; [lia|reflexivity]. }
  intros Hfull n'. split.
  - intros Hov. apply (push_overflow malloc item m s Hs Hfull). lia.
  - intros Hlt.
    assert (Hn' : n' = n s + initialSize s).
    { subst n'. destruct (Z_le_gt_dec (n s + initialSize s) UINT_MAX).
      - apply uwrap_small. lia.
      - rewrite uwrap_add_carry in Hlt |- *; unfold UINT_MAX in *; lia. }
    split; [assumption|]. split; [subst n'; apply uwrap_range|].
    split; [|split; [|split]].
    + intros f1 f2 E1 E2 Hitem Hfit.
      pose proof (uwrap_range (n' * itemSize s)) as Hsz.
      assert (Hl : load item 0 (itemSize s)
                   = Some (slice item 0 (itemSize s)))
        by (apply load_Some; lia).
      assert (Hlen : Zlength (slice item 0 (itemSize s)) = itemSize s)
        by (apply Zlength_slice; lia).
      destruct (store_Some (fresh f2 (uwrap (n' * itemSize s))) 0
                  (slice item 0 (itemSize s))) as (Items' & Hst).
      { lia. }
      { rewrite Hlen, Zlength_fresh by lia. lia. }
      exists Items'. split; [|split].
      * apply (push_grow malloc item m s f1 f2 (slice item 0 (itemSize s))
                 Items' Hs Hfull); try assumption. fold n'. lia.
      * rewrite (Zlength_store _ _ _ _ Hst). apply Zlength_fresh. lia.
      * rewrite <- Hlen at 1. exact (slice_store_same _ _ _ _ Hst).
    + intros Hno. apply (push_refused malloc item m s Hs Hfull); [|exact Hno].
      fold n'. lia.
    + intros H1 H2. apply (push_never_exits_past_guard malloc item m s Hs).
      intros _. fold n'. split; [lia|]. tauto.
    + intros u m' Hrun.
      destruct (push_cases malloc item m m' s u Hs Hrun)
        as [(Items & next & src & Items' & _ & Hroom & _)
           |(f1 & f2 & src & Items' & _ & _ & _ & _ & _ & _ & ->)].
      * contradiction.
      * eexists. split; reflexivity.
Qed.

Lemma push_overflow_guard_witness :
  (reach calloc_like 2 4 [word Byte.x02; word Byte.x01] stack2 /\
   (machine_of stack2).(m_stack) = Some stack2 /\
   stack2.(i) = stack2.(n) /\
   stack2.(n) < uwrap (stack2.(n) + stack2.(initialSize)) /\
   exists Items',
     push calloc_like (word Byte.x03) (machine_of stack2)
     = Ret tt (mkMachine (Some (mkStack (Items' :: stack2.(head)) 1 4 4 2))
                 (word Byte.x00) [Malloc 16; Malloc 16]) /\
     Zlength Items' = 16 /\
     slice Items' 0 4 = word Byte.x03) /\
  (reach calloc_like 2147483648 0 (repeat [] (Z.to_nat 2147483648))
         stack_at_limit /\
   (machine_of stack_at_limit).(m_stack) = Some stack_at_limit /\
   stack_at_limit.(i) = stack_at_limit.(n) /\
   uwrap (stack_at_limit.(n) + stack_at_limit.(initialSize))
   <= stack_at_limit.(n) /\
   push calloc_like [] (machine_of stack_at_limit)
   = Exit (machine_of stack_at_limit)).
Proof.
  split.
  - split; [exact reach_stack2|]. split; [reflexivity|].
    split; [reflexivity|]. split; [reflexivity|].
    apply (proj1 (proj2 (proj2 (proj2 (proj2
             (push_overflow_guard calloc_like 2 4 _ stack2
                (machine_of stack2) (word Byte.x03) reach_stack2 eq_refl)
             eq_refl) eq_refl)))
             (fun _ => Byte.x00) (fun _ => Byte.x00) eq_refl eq_refl);
      discriminate.
  - split; [exact reach_stack_at_limit|]. split; [reflexivity|].
    split; [reflexivity|]. split; [discriminate|].
    apply (proj1 (proj2
             (push_overflow_guard calloc_like 2147483648 0 _ stack_at_limit
                (machine_of stack_at_limit) [] reach_stack_at_limit eq_refl)
             eq_refl)).
    discriminate.
Defined.

(** ** The precondition of pop *)

(** C8. [pop] through a [NULL] handle, and [pop] on a stack with no item
    left, leave by [exit(0)] with the machine as it was: stack,
    destination and allocator log.  On a stack with an item left [pop]
    never leaves by [exit(0)], and it completes when the destination has
    room for one item. *)
Theorem pop_needs_item (malloc : Z -> option (nat -> byte))
    (initial_size item_size : Z) (pushed : list (list byte)) (s : Stack)
    (m : machine) :
  reach malloc initial_size item_size pushed s ->
  m.(m_stack) = Some s ->
  (pushed = [] -> pop m = Exit m) /\
  (pushed <> [] ->
   (forall m', pop m <> Exit m') /\
   (s.(itemSize) <= Zlength m.(m_dest) -> exists m', pop m = Ret tt m')) /\
  pop (mkMachine None m.(m_dest) m.(m_log))
  = Exit (mkMachine None m.(m_dest) m.(m_log)).
Proof.
  intros Hr Hs.
  destruct (reach_Inv _ _ _ _ _ Hr) as (HI & Hc & _).
  pose proof (isStackEmpty_contents m s Hs HI) as He. rewrite Hc in He.
  split; [|split].
  - intros ->. unfold pop. run. rewrite Hs. cbv beta. rewrite He.
    reflexivity.
  - intros Hne. split.
    + intros m'. destruct pushed as [|x rest]; [easy|].
      unfold pop. run. rewrite Hs. cbv beta. rewrite He.
      change (0 =? 0) with true. cbv iota beta. branches.
    + intros Hd. apply (pop_returns m s Hs HI); [|assumption].
      now rewrite Hc.
  - reflexivity.
Qed.

Lemma pop_needs_item_witness :
  reach calloc_like 2 4 [] stack0 /\
  (machine_of stack0).(m_stack) = Some stack0 /\
  pop (machine_of stack0) = Exit (machine_of stack0).
Proof.
  split; [exact reach_stack0|]. split; [reflexivity|].
  apply (pop_needs_item calloc_like 2 4 [] stack0 (machine_of stack0)
           reach_stack0 eq_refl).
  reflexivity.
Defined.

(** ** A stack of initial size zero *)

(** C10. When the allocator serves it, [initStack(0, item_size)]
    returns a stack, empty and with growth increment 0; its head table is
    full from the start, and every [push] on it leaves by [exit(0)]
    before anything is allocated or stored. *)
Theorem zero_capacity_stack (malloc : Z -> option (nat -> byte))
    (item_size : Z) (m : machine) :
  malloc sizeof_Stack <> None ->
  malloc sizeof_node <> None ->
  malloc 0 <> None ->
  exists m' s,
    initStack malloc 0 item_size m = Ret tt m' /\
    m'.(m_stack) = Some s /\
    s.(head) = [[]] /\ s.(i) = 0 /\ s.(n) = 0 /\ s.(initialSize) = 0 /\
    isStackEmpty m' = Ret 1 m' /\
    forall (item dest : list byte) (log : list event),
      push malloc item (mkMachine (Some s) dest log)
      = Exit (mkMachine (Some s) dest log).
Proof.
  intros H1 H2 H3.
  destruct (malloc sizeof_Stack) as [f1|] eqn:E1; [|easy].
  destruct (malloc sizeof_node) as [f2|] eqn:E2; [|easy].
  destruct (malloc 0) as [f3|] eqn:E3; [|easy].
  eexists. eexists.
  split; [apply (initStack_run malloc 0 item_size m f1 f2 f3 E1 E2 E3)|].
  split; [reflexivity|]. cbn [head i n initialSize].
  repeat (split; [reflexivity|]).
  intros item dest log.
  now apply (push_overflow malloc item (mkMachine (Some _) dest log) _ eq_refl).
Qed.

Lemma zero_capacity_stack_witness :
  calloc_like sizeof_Stack <> None /\
  calloc_like sizeof_node <> None /\
  calloc_like 0 <> None /\
  exists m' s,
    initStack calloc_like 0 4 blank = Ret tt m' /\
    m'.(m_stack) = Some s /\
    s.(head) = [[]] /\ s.(i) = 0 /\ s.(n) = 0 /\ s.(initialSize) = 0 /\
    isStackEmpty m' = Ret 1 m' /\
    forall (item dest : list byte) (log : list event),
      push calloc_like item (mkMachine (Some s) dest log)
      = Exit (mkMachine (Some s) dest log).
Proof.
  split; [discriminate|]. split; [discriminate|]. split; [discriminate|].
  apply (zero_capacity_stack calloc_like 4 blank); discriminate.
Defined.

(** ** What pop frees *)

Lemma pop_log (m : machine) :
  match pop m with
  | Ret _ m' =>
    m'.(m_log) = m.(m_log) \/
    exists old_Items,
      m'.(m_log) = m.(m_log) ++ [Free (ItemsBlock old_Items); Free NodeBlock]
  | Exit m' => m' = m
  | Undef => True
  end.
Proof.
  destruct (pop m) as [u m'|m'|] eqn:E; [| |exact I].
  - destruct (m_stack m) as [s|] eqn:Hs.
    + destruct (pop_cases m m' s u Hs E)
        as [(Items & next & src & dest' & _ & _ & _ & _ & ->)
           |(old_Items & Items & next & src & dest' & _ & _ & _ & _ & ->)].
      * now left.
      * right. now exists old_Items.
    + rewrite (pop_null m Hs) in E. discriminate.
  - revert E. unfold pop. run.
    destruct (m_stack m) as [s|] eqn:Hs; [|now intros [= <-]].
    unfold isStackEmpty. run. rewrite Hs. branches.
Qed.

(** C2. On a stack with an item left and with [i] at 0, [pop] frees the
    head table and its node and nothing else, makes the next table the
    head, takes [n - initialSize], the size of that table, as the index
    and pops the item under it; with [i] above 0 it frees nothing.  No
    call of [pop], on any machine, frees more than one table. *)
Theorem pop_frees_at_most_one (malloc : Z -> option (nat -> byte))
    (initial_size item_size : Z) (pushed : list (list byte)) (s : Stack)
    (m : machine) :
  reach malloc initial_size item_size pushed s ->
  m.(m_stack) = Some s ->
  pushed <> [] ->
  s.(itemSize) <= Zlength m.(m_dest) ->
  (exists m' s',
      pop m = Ret tt m' /\ m'.(m_stack) = Some s' /\
      (s.(i) = 0 ->
       exists old_Items Items next,
         s.(head) = old_Items :: Items :: next /\
         s'.(head) = Items :: next /\
         m'.(m_log)
         = m.(m_log) ++ [Free (ItemsBlock old_Items); Free NodeBlock] /\
         s'.(n) = s.(n) - s.(initialSize) /\
         Zlength Items = s'.(n) * s.(itemSize) /\
         s'.(i) = s'.(n) - 1 /\
         m'.(m_dest)
         = slice Items (s'.(i) * s.(itemSize)) s.(itemSize)
           ++ skipn (Z.to_nat s.(itemSize)) m.(m_dest)) /\
      (s.(i) <> 0 ->
       s'.(head) = s.(head) /\ m'.(m_log) = m.(m_log) /\
       s'.(n) = s.(n) /\ s'.(i) = s.(i) - 1)) /\
  forall m0 : machine,
    match pop m0 with
    | Ret _ m' =>
      m'.(m_log) = m0.(m_log) \/
      exists old_Items,
        m'.(m_log)
        = m0.(m_log) ++ [Free (ItemsBlock old_Items); Free NodeBlock]
    | Exit m' => m' = m0
    | Undef => True
    end.
Proof.
  intros Hr Hs Hne Hd. split; [|exact pop_log].
  destruct (reach_Inv _ _ _ _ _ Hr) as (HI & Hc & _).
  rewrite <- Hc in Hne.
  destruct (pop_returns m s Hs HI Hne Hd) as (m' & Hrun).
  exists m'.
  destruct (pop_cases m m' s tt Hs Hrun)
    as [(Items & next & src & dest' & Hh & Hi & Hl & Hst & ->)
       |(old_Items & Items & next & src & dest' & Hh & Hi & Hl & Hst & ->)].
  - eexists. split; [exact Hrun|]. split; [reflexivity|].
    split; [contradiction|]. intros _. cbn [m_stack m_log head n i].
    destruct (pop_top_Inv s Items next HI Hh Hi) as (E & _). auto.
  - eexists. split; [exact Hrun|]. split; [reflexivity|].
    split; [|contradiction]. intros _. cbn [m_stack m_log m_dest head n i].
    destruct (pop_descend_Inv s old_Items Items next HI Hh Hi)
      as (En & Ei & HL & Hoff & Hl' & _).
    rewrite Hoff, Hl' in Hl. injection Hl as <-.
    exists old_Items, Items, next.
    repeat (split; [first [reflexivity|assumption]|]).
    rewrite (store_dest _ _ _ Hst). do 2 f_equal.
    apply load_inv in Hl'. destruct Hl' as (_ & H1 & H2 & H3).
    pose proof (Zlength_slice Items _ _ H1 H2 H3) as Hlen.
    rewrite Zlength_correct in Hlen. lia.
Qed.

Lemma pop_frees_at_most_one_witness :
  reach calloc_like 2 4 [word Byte.x02; word Byte.x01] stack3' /\
  (machine_of stack3').(m_stack) = Some stack3' /\
  [word Byte.x02; word Byte.x01] <> [] /\
  stack3'.(itemSize) <= Zlength (machine_of stack3').(m_dest) /\
  exists m' s',
    pop (machine_of stack3') = Ret tt m' /\ m'.(m_stack) = Some s' /\
    (stack3'.(i) = 0 ->
     exists old_Items Items next,
       stack3'.(head) = old_Items :: Items :: next /\
       s'.(head) = Items :: next /\
       m'.(m_log)
       = (machine_of stack3').(m_log)
         ++ [Free (ItemsBlock old_Items); Free NodeBlock] /\
       s'.(n) = stack3'.(n) - stack3'.(initialSize) /\
       Zlength Items = s'.(n) * stack3'.(itemSize) /\
       s'.(i) = s'.(n) - 1 /\
       m'.(m_dest)
       = slice Items (s'.(i) * stack3'.(itemSize)) stack3'.(itemSize)
         ++ skipn (Z.to_nat stack3'.(itemSize)) (machine_of stack3').(m_dest)) /\
    (stack3'.(i) <> 0 ->
     s'.(head) = stack3'.(head) /\ m'.(m_log) = (machine_of stack3').(m_log) /\
     s'.(n) = stack3'.(n) /\ s'.(i) = stack3'.(i) - 1).
Proof.
  split; [exact reach_stack3'|]. split; [reflexivity|].
  split; [discriminate|]. split; [discriminate|].
  apply (pop_frees_at_most_one calloc_like 2 4 _ stack3' (machine_of stack3')
           reach_stack3' eq_refl); discriminate.
Defined.

(** ** The two paths of push *)

(** The claim C3 as it is written fails on the stack of initial size
    zero: its head table is full, and [push] leaves by [exit(0)] with the
    machine as it was, the log of the allocator included. *)
Lemma push_on_full_head_may_exit :
  reach calloc_like 0 4 [] stack_zero /\
  stack_zero.(i) = stack_zero.(n) /\
  push calloc_like (word Byte.x01) (machine_of stack_zero)
  = Exit (machine_of stack_zero).
Proof.
  split; [exact reach_stack_zero|]. split; reflexivity.
Qed.

(** C3, amended.  On a stack a client can hold, with an item of at least
    [itemSize] bytes: when the head table is full, the guard passes, the
    byte size of the new table fits [unsigned int] and the allocator
    serves the node and the table, [push] allocates exactly these two
    blocks, the table for [n + initialSize] items, links it as the head,
    writes the item at offset 0 and leaves [i] at 1; when the head table
    is not full and its byte size fits [unsigned int], [push] allocates
    nothing, writes the item at offset [i * itemSize] and adds one to
    [i]. *)
Theorem push_paths (malloc : Z -> option (nat -> byte))
    (initial_size item_size : Z) (pushed : list (list byte)) (s : Stack)
    (m : machine) (item : list byte) :
  reach malloc initial_size item_size pushed s ->
  m.(m_stack) = Some s ->
  s.(itemSize) <= Zlength item ->
  (s.(i) = s.(n) ->
   s.(n) < uwrap (s.(n) + s.(initialSize)) ->
   (s.(n) + s.(initialSize)) * s.(itemSize) <= UINT_MAX ->
   forall f1 f2,
     malloc sizeof_node = Some f1 ->
     malloc ((s.(n) + s.(initialSize)) * s.(itemSize)) = Some f2 ->
     exists Items',
       store (fresh f2 ((s.(n) + s.(initialSize)) * s.(itemSize))) 0
             (slice item 0 s.(itemSize)) = Some Items' /\
       push malloc item m
       = Ret tt (mkMachine
                   (Some (mkStack (Items' :: s.(head)) 1
                                  (s.(n) + s.(initialSize))
                                  s.(itemSize) s.(initialSize)))
                   m.(m_dest)
                   (m.(m_log)
                    ++ [Malloc sizeof_node;
                        Malloc ((s.(n) + s.(initialSize)) * s.(itemSize))])))
  /\
  (s.(i) <> s.(n) ->
   s.(n) * s.(itemSize) <= UINT_MAX ->
   exists Items next Items',
     s.(head) = Items :: next /\
     store Items (s.(i) * s.(itemSize)) (slice item 0 s.(itemSize))
     = Some Items' /\
     push malloc item m
     = Ret tt (mkMachine
                 (Some (mkStack (Items' :: next) (s.(i) + 1) s.(n)
                                s.(itemSize) s.(initialSize)))
                 m.(m_dest) m.(m_log))).
Proof.
  intros Hr Hs Hitem.
  destruct (reach_Inv _ _ _ _ _ Hr) as (HI & _).
  now apply push_runs.
Qed.

Lemma push_paths_witness :
  reach calloc_like 2 4 [word Byte.x02; word Byte.x01] stack2 /\
  (machine_of stack2).(m_stack) = Some stack2 /\
  stack2.(itemSize) <= Zlength (word Byte.x03) /\
  stack2.(i) = stack2.(n) /\
  stack2.(n) < uwrap (stack2.(n) + stack2.(initialSize)) /\
  (stack2.(n) + stack2.(initialSize)) * stack2.(itemSize) <= UINT_MAX /\
  calloc_like sizeof_node = Some (fun _ => Byte.x00) /\
  calloc_like ((stack2.(n) + stack2.(initialSize)) * stack2.(itemSize))
  = Some (fun _ => Byte.x00) /\
  exists Items',
    store (fresh (fun _ => Byte.x00)
                 ((stack2.(n) + stack2.(initialSize)) * stack2.(itemSize))) 0
          (slice (word Byte.x03) 0 stack2.(itemSize)) = Some Items' /\
    push calloc_like (word Byte.x03) (machine_of stack2)
    = Ret tt (mkMachine
                (Some (mkStack (Items' :: stack2.(head)) 1
                               (stack2.(n) + stack2.(initialSize))
                               stack2.(itemSize) stack2.(initialSize)))
                (machine_of stack2).(m_dest)
                ((machine_of stack2).(m_log)
                 ++ [Malloc sizeof_node;
                     Malloc ((stack2.(n) + stack2.(initialSize))
                             * stack2.(itemSize))])).
Proof.
  split; [exact reach_stack2|]. split; [reflexivity|].
  split; [discriminate|]. split; [reflexivity|]. split; [reflexivity|].
  split; [discriminate|]. split; [reflexivity|]. split; [reflexivity|].
  assert (Hitem : stack2.(itemSize) <= Zlength (word Byte.x03))
    by discriminate.
  apply (proj1 (push_paths calloc_like 2 4 _ stack2 (machine_of stack2)
                  (word Byte.x03) reach_stack2 eq_refl Hitem))
    with (f1 := fun _ => Byte.x00);
    first [reflexivity|discriminate].
Defined.

(** ** Runs of several calls *)

Lemma bind_Ret {A B} (c : M A) (k : A -> M B) (m m' : machine) (a : A) :
  c m = Ret a m' -> bind c k m = k a m'.
Proof. intros H. unfold bind. now rewrite H. Qed.

Lemma bind_Exit {A B} (c : M A) (k : A -> M B) (m m' : machine) :
  c m = Exit m' -> bind c k m = Exit m'.
Proof. intros H. unfold bind. now rewrite H. Qed.

Lemma bind_Ret_inv {A B} (c : M A) (k : A -> M B) (m m' : machine) (b : B) :
  bind c k m = Ret b m' ->
  exists a m0, c m = Ret a m0 /\ k a m0 = Ret b m'.
Proof.
  unfold bind. destruct (c m) as [a m0|m0|]; try discriminate. eauto.
Qed.

Lemma slice_all (x : list byte) : slice x 0 (Zlength x) = x.
Proof.
  unfold slice. rewrite Zlength_correct, Nat2Z.id. simpl.
  apply firstn_all.
Qed.

Lemma map_slice_all (isz : Z) (items : list (list byte)) :
  Forall (fun x => Zlength x = isz) items ->
  map (fun x => slice x 0 isz) items = items.
Proof.
  induction 1 as [|x items Hx _ IH]; simpl; [reflexivity|].
  rewrite IH, <- Hx. now rewrite slice_all.
Qed.

Section Runs_of_calls.

Variable malloc : Z -> option (nat -> byte).

Lemma served :
  (forall size, malloc size <> None) ->
  forall size, exists fill, malloc size = Some fill.
Proof.
  intros H size. specialize (H size).
  destruct (malloc size) as [fill|]; [eauto|easy].
Qed.

Lemma push_all_app (items1 items2 : list (list byte)) (m : machine) :
  push_all malloc (items1 ++ items2) m
  = (push_all malloc items1 ;;; push_all malloc items2) m.
Proof.
  revert m. induction items1 as [|x items1 IH]; intros m; simpl.
  - reflexivity.
  - unfold bind. destruct (push malloc x m) as [u m1|m1|]; try reflexivity.
    rewrite IH. reflexivity.
Qed.

Lemma push_all_one (x : list byte) (m : machine) :
  push_all malloc [x] m = (push malloc x ;;; ret tt) m.
Proof. reflexivity. Qed.

(** Completed pushes keep the invariant and stack the items up. *)
Lemma push_all_step (items : list (list byte)) (m m' : machine) (s : Stack)
    (u : unit) :
  m.(m_stack) = Some s -> Inv s ->
  push_all malloc items m = Ret u m' ->
  exists s',
    m'.(m_stack) = Some s' /\ Inv s' /\
    contents s'
    = rev (map (fun x => slice x 0 s.(itemSize)) items) ++ contents s /\
    s'.(itemSize) = s.(itemSize) /\ s'.(initialSize) = s.(initialSize) /\
    m'.(m_dest) = m.(m_dest).
Proof.
  revert m s. induction items as [|x items IH]; intros m s Hs HI; simpl.
  - intros [= _ <-]. exists s.
    split; [assumption|]. split; [assumption|]. split; [reflexivity|]. auto.
  - unfold bind. destruct (push malloc x m) as [v m1| |] eqn:E; try discriminate.
    destruct (push_step malloc x m m1 s v Hs HI E)
      as (s1 & Hs1 & HI1 & Hc1 & E1 & E2 & Ed1).
    intros Hrun. destruct (IH m1 s1 Hs1 HI1 Hrun)
      as (s' & Hs' & HI' & Hc' & E1' & E2' & Ed').
    exists s'. rewrite Hc', Hc1, E1, <- app_assoc. simpl.
    split; [assumption|]. split; [assumption|]. split; [reflexivity|].
    repeat split; congruence.
Qed.

Lemma push_all_reach (initial_size item_size : Z) (items : list (list byte))
    (pushed : list (list byte)) (m m' : machine) (s : Stack) (u : unit) :
  reach malloc initial_size item_size pushed s ->
  m.(m_stack) = Some s ->
  push_all malloc items m = Ret u m' ->
  exists s',
    m'.(m_stack) = Some s' /\
    reach malloc initial_size item_size
          (rev (map (fun x => slice x 0 item_size) items) ++ pushed) s'.
Proof.
  revert pushed m s. induction items as [|x items IH];
    intros pushed m s Hr Hs; simpl.
  - intros [= _ <-]. exists s. auto.
  - unfold bind. destruct (push malloc x m) as [v m1| |] eqn:E; try discriminate.
    destruct (reach_Inv _ _ _ _ _ Hr) as (HI & _).
    destruct (push_step malloc x m m1 s v Hs HI E) as (s1 & Hs1 & _).
    destruct v.
    pose proof (reach_push _ _ _ _ _ _ _ _ _ Hr Hs E Hs1) as Hr1.
    intros Hrun. destruct (IH _ m1 s1 Hr1 Hs1 Hrun) as (s' & Hs' & Hr').
    exists s'. split; [assumption|]. now rewrite <- app_assoc.
Qed.

(** Pushes complete when the allocator serves every request and [K]
    tables are enough for the items and have byte sizes that fit
    [unsigned int]. *)
Lemma push_all_returns (K : Z) (items : list (list byte)) (m : machine)
    (s : Stack) :
  (forall size, malloc size <> None) ->
  m.(m_stack) = Some s -> Inv s ->
  0 < s.(initialSize) ->
  Forall (fun x => s.(itemSize) <= Zlength x) items ->
  Zlength s.(head) <= K ->
  s.(initialSize) * K <= UINT_MAX ->
  s.(initialSize) * K * s.(itemSize) <= UINT_MAX ->
  2 * s.(i) + s.(initialSize) * Zlength s.(head) * (Zlength s.(head) - 1)
  + 2 * Zlength items <= s.(initialSize) * K * (K + 1) ->
  exists m' s',
    push_all malloc items m = Ret tt m' /\
    m'.(m_stack) = Some s' /\ Zlength s'.(head) <= K.
Proof.
  intros Hmalloc. revert m s.
  induction items as [|x items IH];
    intros m s Hs HI Hinit Hitems HK Hcap Hbytes Hroom.
  - exists m, s. auto.
  - inversion Hitems as [|? ? Hx Hrest]; subst.
    rewrite Zlength_cons in Hroom.
    pose proof (Inv_n s HI) as Hn.
    pose proof (Zlength_nonneg items) as Hlen.
    assert (HL : 1 <= Zlength (head s)).
    { destruct HI as (_ & _ & HI). destruct (head s); [easy|].
      rewrite Zlength_cons. pose proof (Zlength_nonneg l). lia. }
    assert (Hfacts : 0 <= itemSize s /\ 0 <= i s <= n s).
    { destruct HI as (Hisz & _ & HI). destruct (head s); [easy|].
      unfold is_uint in *. lia. }
    destruct Hfacts as (Hisz & Hi).
    set (a := initialSize s) in *. set (L := Zlength (head s)) in *.
    destruct (push_runs malloc s m x HI Hs Hx) as (Hgrow & Hkeep).
    destruct (Z.eq_dec (i s) (n s)) as [Hfull|Hnot].
    + assert (HLK : L < K).
      { destruct (Z_lt_le_dec L K) as [|Hge]; [assumption|exfalso].
        assert (a * K * (K + 1) <= a * L * (L + 1)).
        { apply Z.mul_le_mono_nonneg; try nia. }
        nia. }
      assert (Hsum : n s + a <= UINT_MAX) by nia.
      assert (Hb : (n s + a) * itemSize s <= UINT_MAX).
      { assert ((n s + a) * itemSize s <= a * K * itemSize s).
        { apply Z.mul_le_mono_nonneg_r; nia. }
        lia. }
      destruct (served Hmalloc sizeof_node) as (f1 & E1).
      destruct (served Hmalloc ((n s + a) * itemSize s)) as (f2 & E2).
      assert (Hguard : n s < uwrap (n s + a)) by (rewrite uwrap_small; lia).
      destruct (Hgrow Hfull Hguard Hb f1 f2 E1 E2) as (Items' & _ & Hrun).
      simpl. rewrite (bind_Ret _ _ _ _ _ Hrun).
      eapply IH; [reflexivity|..];
        cbn [m_stack head i n itemSize initialSize]; try assumption.
      * destruct (push_step malloc x m _ s tt Hs HI Hrun)
          as (s1 & [= <-] & HI1 & _). exact HI1.
      * fold L. rewrite Zlength_cons. lia.
      * fold a L. rewrite Zlength_cons. fold L. nia.
    + assert (Hb : n s * itemSize s <= UINT_MAX).
      { assert (n s * itemSize s <= a * K * itemSize s).
        { apply Z.mul_le_mono_nonneg_r; nia. }
        lia. }
      destruct (Hkeep Hnot Hb) as (Items & next & Items' & Hh & _ & Hrun).
      simpl. rewrite (bind_Ret _ _ _ _ _ Hrun).
      assert (HL' : Zlength (Items' :: next) = L).
      { subst L. rewrite Hh, !Zlength_cons. reflexivity. }
      eapply IH; [reflexivity|..];
        cbn [m_stack head i n itemSize initialSize]; try assumption.
      * destruct (push_step malloc x m _ s tt Hs HI Hrun)
          as (s1 & [= <-] & HI1 & _). exact HI1.
      * rewrite HL'. assumption.
      * fold a. rewrite HL'. lia.
Qed.

(** Pops give the items back, newest first. *)
Lemma pop_all_spec (N : nat) (m : machine) (s : Stack) :
  m.(m_stack) = Some s -> Inv s ->
  (N <= length (contents s))%nat ->
  Zlength m.(m_dest) = s.(itemSize) ->
  exists m' s',
    pop_all N m = Ret (firstn N (contents s)) m' /\
    m'.(m_stack) = Some s' /\ Inv s' /\
    contents s' = skipn N (contents s).
Proof.
  revert m s. induction N as [|N IH]; intros m s Hs HI HN Hd.
  - exists m, s. auto.
  - destruct (contents s) as [|x rest] eqn:Hc; [simpl in HN; lia|].
    destruct (pop_returns m s Hs HI) as (m1 & Hrun).
    { rewrite Hc. discriminate. }
    { lia. }
    destruct (pop_step m m1 s tt Hs HI Hrun)
      as (s1 & x' & Hs1 & HI1 & Hc1 & Hd1 & Hx & E1 & _).
    rewrite Hc in Hc1. injection Hc1 as <- Hrest.
    assert (Hdest : m_dest m1 = x).
    { rewrite Hd1. rewrite skipn_all2; [apply app_nil_r|].
      rewrite !Zlength_correct in *. lia. }
    destruct (IH m1 s1 Hs1 HI1) as (m' & s' & Hrun' & Hs' & HI' & Hc').
    { rewrite <- Hrest. simpl in HN. lia. }
    { rewrite Hdest. congruence. }
    exists m', s'. simpl.
    rewrite (bind_Ret _ _ _ _ _ Hrun). unfold bind at 1, get_dest.
    rewrite Hdest. rewrite (bind_Ret _ _ _ _ _ Hrun').
    unfold ret. rewrite Hrest. simpl.
    split; [reflexivity|]. auto.
Qed.

End Runs_of_calls.

(** ** Last in, first out *)

Lemma Zlength_repeat {A} (x : A) (count : Z) :
  0 <= count -> Zlength (repeat x (Z.to_nat count)) = count.
Proof. intros H. rewrite Zlength_correct, repeat_length. lia. Qed.

Lemma Zlength_contents_single (s : Stack) (Items : table) :
  Inv s -> s.(head) = [Items] -> Zlength (contents s) = s.(i).
Proof.
  intros (_ & _ & HI) Hh. unfold contents. rewrite Hh in *.
  cbn [tables_items]. rewrite app_nil_r, Zlength_correct, length_items_of.
  lia.
Qed.

Lemma head_single (s : Stack) :
  Inv s -> Zlength s.(head) <= 1 -> exists Items, s.(head) = [Items].
Proof.
  intros (_ & _ & HI). destruct (head s) as [|T [|T' l]]; [easy|eauto|].
  rewrite !Zlength_cons. pose proof (Zlength_nonneg l). lia.
Qed.

(** After [count] pushes that fit the first table, the index is [count]. *)
Lemma push_all_first_table (malloc : Z -> option (nat -> byte))
    (initial_size item_size : Z) (items : list (list byte)) (m : machine) :
  (forall size, malloc size <> None) ->
  0 < initial_size <= UINT_MAX -> is_uint item_size ->
  initial_size * item_size <= UINT_MAX ->
  Forall (fun x => item_size <= Zlength x) items ->
  Zlength items <= initial_size ->
  exists m' s' Items,
    (initStack malloc initial_size item_size ;;; push_all malloc items) m
    = Ret tt m' /\
    m'.(m_stack) = Some s' /\
    reach malloc initial_size item_size
          (rev (map (fun x => slice x 0 item_size) items)) s' /\
    s'.(head) = [Items] /\ s'.(i) = Zlength items /\
    s'.(n) = initial_size /\ s'.(initialSize) = initial_size.
Proof.
  intros Hmalloc Ha Hb Hbytes Hitems Hcount.
  destruct (served malloc Hmalloc sizeof_Stack) as (f1 & E1).
  destruct (served malloc Hmalloc sizeof_node) as (f2 & E2).
  destruct (served malloc Hmalloc (uwrap (initial_size * item_size)))
    as (f3 & E3).
  pose proof (initStack_run malloc initial_size item_size m f1 f2 f3 E1 E2 E3)
    as Hinit.
  set (s0 := mkStack [fresh f3 (uwrap (initial_size * item_size))]
                     0 initial_size item_size initial_size) in *.
  set (m0 := mkMachine (Some s0) _ _) in Hinit.
  assert (Hr0 : reach malloc initial_size item_size [] s0).
  { apply (reach_init malloc initial_size item_size m m0 s0);
      unfold is_uint in *; try lia; auto. }
  destruct (reach_Inv _ _ _ _ _ Hr0) as (HI0 & _).
  destruct (push_all_returns malloc 1 items m0 s0 Hmalloc eq_refl HI0)
    as (m' & s' & Hrun & Hs' & HL); cbn [s0 head i n itemSize initialSize];
    try lia; try assumption;
    try (rewrite !Zlength_cons, Zlength_nil; lia).
  destruct (push_all_reach malloc _ _ items [] m0 m' s0 tt Hr0 eq_refl Hrun)
    as (s2 & Hs2 & Hr').
  rewrite Hs' in Hs2. injection Hs2 as <-. rewrite app_nil_r in Hr'.
  destruct (reach_Inv _ _ _ _ _ Hr') as (HI' & Hc' & _ & Hinit').
  destruct (head_single s' HI' HL) as (Items & Hh).
  exists m', s', Items.
  split; [now rewrite (bind_Ret _ _ _ _ _ Hinit)|].
  split; [assumption|]. split; [assumption|]. split; [assumption|].
  pose proof (Zlength_contents_single s' Items HI' Hh) as Hi.
  rewrite Hc', !Zlength_correct, length_rev, length_map in Hi.
  rewrite Zlength_correct.
  split; [symmetry; exact Hi|]. split; [|assumption].
  rewrite (Inv_n s' HI'), Hh, Hinit', Zlength_cons, Zlength_nil. lia.
Qed.

(** Whenever the pushes complete, the pops complete and give the items
    back in the reverse order. *)
Lemma lifo_of_completed_pushes (malloc : Z -> option (nat -> byte))
    (initial_size item_size : Z) (items : list (list byte))
    (m m1 : machine) :
  is_uint initial_size -> is_uint item_size ->
  Forall (fun x => Zlength x = item_size) items ->
  Zlength m.(m_dest) = item_size ->
  (initStack malloc initial_size item_size ;;; push_all malloc items) m
  = Ret tt m1 ->
  exists m2,
    pop_all (length items) m1 = Ret (rev items) m2 /\
    isStackEmpty m2 = Ret 1 m2.
Proof.
  intros Ha Hb Hitems Hd Hrun.
  destruct (bind_Ret_inv _ _ _ _ _ Hrun) as (u & m0 & Hinit & Hpush).
  destruct (initStack_cases malloc _ _ _ _ _ Hinit)
    as (f1 & f2 & f3 & E1 & E2 & E3).
  rewrite (initStack_run malloc _ _ m f1 f2 f3 E1 E2 E3) in Hinit.
  injection Hinit as _ <-.
  pose proof (Inv_initStack f3 initial_size item_size Ha Hb) as HI0.
  destruct (push_all_step malloc items _ m1 _ tt
              (eq_refl : m_stack (mkMachine _ _ _) = _) HI0 Hpush)
    as (s1 & Hs1 & HI1 & Hc1 & Hisz1 & _ & Hd1).
  cbn [itemSize m_dest] in Hc1, Hisz1, Hd1.
  rewrite (map_slice_all _ _ Hitems), contents_initStack, app_nil_r in Hc1.
  destruct (pop_all_spec (length items) m1 s1 Hs1 HI1)
    as (m2 & s2 & Hpops & Hs2 & HI2 & Hc2).
  { rewrite Hc1, length_rev. lia. }
  { rewrite Hd1, Hisz1. exact Hd. }
  exists m2. split.
  - rewrite Hpops, Hc1. f_equal. apply firstn_all2. rewrite length_rev. lia.
  - rewrite (isStackEmpty_contents m2 s2 Hs2 HI2), Hc2, Hc1.
    rewrite skipn_all2 by (rewrite length_rev; lia). reflexivity.
Qed.

(** The claim C1 as it is written fails on a stack of initial size
    [2^31] with items of one byte: the first table takes [2^31] items, the
    size of the second one would wrap to 0, and the next [push] leaves by
    [exit(0)], so that no item is ever popped. *)
Lemma lifo_stops_at_the_overflow_guard :
  exists m',
    (initStack calloc_like 2147483648 1 ;;;
     push_all calloc_like (bytes_2a 2147483648 ++ [[Byte.x2a]]) ;;;
     pop_all (length (bytes_2a 2147483648 ++ [[Byte.x2a]]))) blank1
    = Exit m'.
Proof.
  destruct (push_all_first_table calloc_like 2147483648 1
              (bytes_2a 2147483648) blank1)
    as (m' & s' & Items & Hrun & Hs' & _ & _ & Hi & Hn & Hinit).
  - discriminate.
  - unfold UINT_MAX. lia.
  - unfold is_uint, UINT_MAX. lia.
  - unfold UINT_MAX. lia.
  - apply Forall_forall. intros x Hx. apply repeat_spec in Hx. subst x.
    discriminate.
  - rewrite Zlength_repeat; lia.
  - rewrite Zlength_repeat in Hi by lia.
    destruct (bind_Ret_inv _ _ _ _ _ Hrun) as (u & m0 & Hinit0 & Hpush).
    assert (Hlast : push calloc_like [Byte.x2a] m' = Exit m').
    { apply (push_overflow calloc_like [Byte.x2a] m' s' Hs').
      - now rewrite Hi, Hn.
      - rewrite Hn, Hinit, Hi. clear. discriminate. }
    exists m'.
    rewrite (bind_Ret _ _ _ _ _ Hinit0).
    apply bind_Exit. rewrite push_all_app.
    rewrite (bind_Ret _ _ _ _ _ Hpush).
    rewrite push_all_one. now apply bind_Exit.
Qed.

(** C1, amended.  When the allocator serves every request, the initial
    size is at least 1 and [K] tables are enough for the [N] items while
    their sizes in items and in bytes fit [unsigned int], [N] calls of
    [push] followed by [N] calls of [pop] complete and give the items
    back in the reverse order, across however many tables, and leave the
    stack empty. *)
Theorem lifo_order (malloc : Z -> option (nat -> byte))
    (initial_size item_size K : Z) (items : list (list byte)) (m : machine) :
  (forall size, malloc size <> None) ->
  1 <= initial_size ->
  is_uint item_size ->
  Forall (fun x => Zlength x = item_size) items ->
  Zlength m.(m_dest) = item_size ->
  1 <= K ->
  initial_size * K <= UINT_MAX ->
  initial_size * K * item_size <= UINT_MAX ->
  2 * Zlength items <= initial_size * K * (K + 1) ->
  exists m',
    (initStack malloc initial_size item_size ;;;
     push_all malloc items ;;;
     pop_all (length items)) m = Ret (rev items) m' /\
    isStackEmpty m' = Ret 1 m'.
Proof.
  intros Hmalloc Ha Hb Hitems Hd HK Hcap Hbytes Hroom.
  assert (Ha' : is_uint initial_size) by (unfold is_uint; nia).
  destruct (served malloc Hmalloc sizeof_Stack) as (f1 & E1).
  destruct (served malloc Hmalloc sizeof_node) as (f2 & E2).
  destruct (served malloc Hmalloc (uwrap (initial_size * item_size)))
    as (f3 & E3).
  pose proof (initStack_run malloc initial_size item_size m f1 f2 f3 E1 E2 E3)
    as Hinit.
  set (s0 := mkStack [fresh f3 (uwrap (initial_size * item_size))]
                     0 initial_size item_size initial_size) in *.
  set (m0 := mkMachine (Some s0) _ _) in Hinit.
  pose proof (Inv_initStack f3 initial_size item_size Ha' Hb) as HI0.
  fold s0 in HI0.
  assert (Hsizes : Forall (fun x => item_size <= Zlength x) items).
  { revert Hitems. apply Forall_impl. intros x ->. lia. }
  destruct (push_all_returns malloc K items m0 s0 Hmalloc eq_refl HI0)
    as (m1 & s1 & Hrun & Hs1 & _); cbn [s0 head i n itemSize initialSize];
    try lia; try assumption;
    try (rewrite !Zlength_cons, Zlength_nil; lia).
  destruct (push_all_step malloc items m0 m1 s0 tt eq_refl HI0 Hrun)
    as (s2 & Hs2 & HI1 & Hc1 & Hisz1 & _ & Hd1).
  rewrite Hs1 in Hs2. injection Hs2 as <-.
  cbn [s0 itemSize] in Hc1, Hisz1.
  rewrite (map_slice_all _ _ Hitems) in Hc1.
  change (contents s0) with (@nil (list byte)) in Hc1.
  rewrite app_nil_r in Hc1.
  destruct (pop_all_spec (length items) m1 s1 Hs1 HI1)
    as (m2 & s2 & Hpops & Hs2 & HI2 & Hc2).
  { rewrite Hc1, length_rev. lia. }
  { rewrite Hd1, Hisz1. exact Hd. }
  exists m2. split.
  - rewrite (bind_Ret _ _ _ _ _ Hinit), (bind_Ret _ _ _ _ _ Hrun), Hpops.
    rewrite Hc1. f_equal. apply firstn_all2. rewrite length_rev. lia.
  - rewrite (isStackEmpty_contents m2 s2 Hs2 HI2), Hc2, Hc1.
    rewrite skipn_all2 by (rewrite length_rev; lia). reflexivity.
Qed.

Lemma lifo_order_witness :
  (forall size, calloc_like size <> None) /\
  1 <= 2 /\
  is_uint 4 /\
  Forall (fun x => Zlength x = 4)
         [word Byte.x01; word Byte.x02; word Byte.x03] /\
  Zlength blank.(m_dest) = 4 /\
  1 <= 2 /\
  2 * 2 <= UINT_MAX /\
  2 * 2 * 4 <= UINT_MAX /\
  2 * Zlength [word Byte.x01; word Byte.x02; word Byte.x03] <= 2 * 2 * (2 + 1) /\
  exists m',
    (initStack calloc_like 2 4 ;;;
     push_all calloc_like [word Byte.x01; word Byte.x02; word Byte.x03] ;;;
     pop_all (length [word Byte.x01; word Byte.x02; word Byte.x03])) blank
    = Ret (rev [word Byte.x01; word Byte.x02; word Byte.x03]) m' /\
    isStackEmpty m' = Ret 1 m'.
Proof.
  assert (H1 : forall size, calloc_like size <> None) by discriminate.
  assert (H2 : is_uint 4) by (unfold is_uint, UINT_MAX; lia).
  assert (H3 : Forall (fun x => Zlength x = 4)
                      [word Byte.x01; word Byte.x02; word Byte.x03])
    by (repeat constructor).
  repeat (split; [first [assumption|reflexivity|discriminate]|]).
  apply (lifo_order calloc_like 2 4 2
           [word Byte.x01; word Byte.x02; word Byte.x03] blank);
    first [assumption|reflexivity|discriminate].
Defined.

(** ** The search changes nothing *)

Lemma scan_table_frame (equal : list byte -> list byte -> Z)
    (item : list byte) (Items : table) (isz : Z) (k : nat) (max_depth : Z)
    (m : machine) :
  scan_table equal item Items isz k max_depth m = Undef \/
  exists r, scan_table equal item Items isz k max_depth m = Ret r m.
Proof.
  revert max_depth. induction k as [|k IH]; intros max_depth.
  - right. eexists. reflexivity.
  - cbn [scan_table]. destruct (max_depth =? 0).
    + right. eexists. reflexivity.
    + unfold bind, read.
      destruct (load Items _ isz) as [cand|]; [|now left].
      unfold ret. destruct (equal item cand =? 0).
      * apply IH.
      * right. eexists. reflexivity.
Qed.

Lemma walk_tables_frame (equal : list byte -> list byte -> Z)
    (item : list byte) (stack : Stack) (node_ptr : list table)
    (n0 i0 max_depth : Z) (m : machine) :
  walk_tables equal item stack node_ptr n0 i0 max_depth m = Undef \/
  exists r, walk_tables equal item stack node_ptr n0 i0 max_depth m = Ret r m.
Proof.
  revert n0 i0 max_depth.
  induction node_ptr as [|Items next IH]; intros n0 i0 max_depth.
  - right. eexists. reflexivity.
  - cbn [walk_tables].
    assert (Hnext : forall d,
      (let n1 := to_int (uwrap (to_uint n0 - initialSize stack)) in
       if n1 =? INT_MIN then undef
       else walk_tables equal item stack next n1 (n1 - 1) d) m = Undef \/
      exists r,
        (let n1 := to_int (uwrap (to_uint n0 - initialSize stack)) in
         if n1 =? INT_MIN then undef
         else walk_tables equal item stack next n1 (n1 - 1) d) m = Ret r m).
    { intros d. cbv zeta. destruct (_ =? INT_MIN); [now left|apply IH]. }
    unfold bind. destruct (i0 <? 0).
    + unfold ret. apply Hnext.
    + destruct (scan_table_frame equal item Items (itemSize stack)
                  (Z.to_nat (i0 + 1)) max_depth m) as [->|(r & ->)];
        [now left|].
      destruct r as [v|d].
      * right. eexists. reflexivity.
      * apply Hnext.
Qed.

(** ** The search finds what the stack holds *)

Lemma search_items_app (equal : list byte -> list byte -> Z)
    (item : list byte) (items1 items2 : list (list byte)) (max_depth : Z) :
  search_items equal item (items1 ++ items2) max_depth
  = match search_items equal item items1 max_depth with
    | inl v => inl v
    | inr d => search_items equal item items2 d
    end.
Proof.
  revert max_depth. induction items1 as [|x items1 IH]; intros d; simpl.
  - reflexivity.
  - destruct (d =? 0); [reflexivity|].
    destruct (equal item x =? 0); [apply IH|reflexivity].
Qed.

Lemma search_items_found_within (equal : list byte -> list byte -> Z)
    (item : list byte) (items : list (list byte)) (max_depth : Z) :
  search_result (search_items equal item items max_depth)
  = found_within equal item items max_depth.
Proof.
  unfold found_within. revert max_depth.
  induction items as [|x items IH]; intros d.
  - simpl. destruct (d <? 0); [reflexivity|]. now rewrite firstn_nil.
  - cbn [search_items]. destruct (Z.eqb_spec d 0) as [->|Hd].
    + reflexivity.
    + destruct (Z.ltb_spec d 0) as [Hneg|Hpos].
      * assert (E : (d >? 0) = false) by lia. rewrite E.
        cbn [existsb]. specialize (IH d).
        rewrite (proj2 (Z.ltb_lt d 0) Hneg) in IH.
        destruct (equal item x =? 0); [exact IH|reflexivity].
      * assert (E : (d >? 0) = true) by lia. rewrite E.
        replace (Z.to_nat d) with (S (Z.to_nat (d - 1))) by lia.
        cbn [firstn existsb]. specialize (IH (d - 1)).
        rewrite (proj2 (Z.ltb_ge (d - 1) 0)) in IH by lia.
        destruct (equal item x =? 0); [exact IH|reflexivity].
Qed.

Lemma to_uint_to_int (z : Z) : is_uint z -> to_uint (to_int z) = z.
Proof.
  unfold is_uint, to_uint, to_int, uwrap, UINT_MAX, INT_MAX. intros H.
  destruct (z <=? 2147483647).
  - apply Z.mod_small. lia.
  - symmetry. apply Z.mod_unique with (q := -1); lia.
Qed.

Lemma scan_table_spec (equal : list byte -> list byte -> Z)
    (item : list byte) (Items : table) (isz : Z) (k : nat) (max_depth : Z)
    (m : machine) :
  0 <= isz ->
  Z.of_nat k * isz <= Zlength Items ->
  Zlength Items <= UINT_MAX ->
  Z.of_nat k <= UINT_MAX + 1 ->
  scan_table equal item Items isz k max_depth m
  = Ret (search_items equal item (items_of Items isz k) max_depth) m.
Proof.
  intros Hisz. revert max_depth.
  induction k as [|k IH]; intros d Hfit HL Hk; [reflexivity|].
  rewrite Nat2Z.inj_succ in Hfit, Hk.
  replace (Z.succ (Z.of_nat k) * isz) with (Z.of_nat k * isz + isz) in Hfit
    by ring.
  assert (Hpos : 0 <= Z.of_nat k * isz) by (apply Z.mul_nonneg_nonneg; lia).
  cbn [scan_table items_of search_items].
  destruct (d =? 0); [reflexivity|].
  unfold to_uint. rewrite (uwrap_small (Z.of_nat k)) by lia.
  rewrite (uwrap_small (Z.of_nat k * isz)) by lia.
  unfold bind, read. rewrite load_Some by lia. unfold ret.
  destruct (equal item _ =? 0); [|reflexivity].
  apply IH; lia.
Qed.

Lemma walk_tables_full (equal : list byte -> list byte -> Z)
    (item : list byte) (stack : Stack) (m : machine)
    (node_ptr : list table) (cap max_depth : Z) :
  is_uint stack.(itemSize) -> is_uint stack.(initialSize) ->
  full_tables stack.(initialSize) stack.(itemSize) node_ptr cap ->
  cap <= INT_MAX ->
  walk_tables equal item stack node_ptr cap (cap - 1) max_depth m
  = Ret (search_result
           (search_items equal item
              (tables_items stack.(initialSize) stack.(itemSize) node_ptr cap)
              max_depth)) m.
Proof.
  intros Hisz Hinit. unfold is_uint in *. revert cap max_depth.
  induction node_ptr as [|Items next IH]; intros cap d Hft Hcap;
    [reflexivity|].
  pose proof (full_tables_cap _ _ _ _ Hft) as Hc.
  cbn [full_tables] in Hft. destruct Hft as (Hpos & HL & Hle & Hft).
  pose proof (full_tables_cap _ _ _ _ Hft) as Hc'.
  pose proof (Zlength_nonneg next) as Hlen.
  cbn [walk_tables tables_items]. rewrite search_items_app.
  assert (E : (cap - 1 <? 0) = false) by lia. rewrite E.
  replace (cap - 1 + 1) with cap by lia.
  unfold INT_MAX, UINT_MAX in *.
  rewrite (bind_Ret _ _ _ _ _
             (scan_table_spec equal item Items (itemSize stack)
                (Z.to_nat cap) d m (proj1 Hisz)
                ltac:(rewrite Z2Nat.id; lia) ltac:(unfold UINT_MAX; lia)
                ltac:(unfold UINT_MAX; lia))).
  destruct (search_items equal item _ d) as [v|d']; [reflexivity|].
  cbv zeta. unfold to_uint.
  rewrite (uwrap_small cap) by (unfold UINT_MAX; lia).
  rewrite (uwrap_small (cap - initialSize stack)) by (unfold UINT_MAX; nia).
  rewrite to_int_small by (unfold INT_MAX; lia).
  assert (E' : (cap - initialSize stack =? INT_MIN) = false)
    by (unfold INT_MIN; nia).
  rewrite E'. apply IH; [assumption|lia].
Qed.

(** On a well-formed stack whose head table has at most [INT_MAX] items
    [itemExists] returns, with the answer of the specification. *)
Lemma itemExists_spec (equal : list byte -> list byte -> Z)
    (item : list byte) (max_depth : Z) (m : machine) (s : Stack) :
  m.(m_stack) = Some s -> Inv s -> s.(n) <= INT_MAX ->
  itemExists item max_depth equal m
  = Ret (found_within equal item (contents s) max_depth) m.
Proof.
  intros Hs HI Hsmall. rewrite <- search_items_found_within.
  unfold itemExists, bind, get_stack. rewrite Hs.
  pose proof HI as (Hisz & Hinit & HI'). unfold contents.
  destruct (head s) as [|Items next] eqn:Hh; [easy|].
  destruct HI' as (Hi & Hn & HL & Hfill & Hft).
  pose proof (full_tables_cap _ _ _ _ Hft) as Hc.
  pose proof (Zlength_nonneg next) as Hlen.
  pose proof (uwrap_range (n s * itemSize s)) as HLr.
  unfold is_uint, INT_MAX, UINT_MAX in *.
  rewrite to_int_small by (unfold INT_MAX; lia).
  cbn [walk_tables]. rewrite search_items_app.
  assert (Hnext : forall d,
    (let n1 := to_int (uwrap (to_uint (n s) - initialSize s)) in
     if n1 =? INT_MIN then undef
     else walk_tables equal item s next n1 (n1 - 1) d) m
    = Ret (search_result
             (search_items equal item
                (tables_items (initialSize s) (itemSize s) next
                   (n s - initialSize s)) d)) m).
  { intros d. cbv zeta. unfold to_uint.
    rewrite (uwrap_small (n s)) by (unfold UINT_MAX; lia).
    rewrite (uwrap_small (n s - initialSize s)) by (unfold UINT_MAX; nia).
    rewrite to_int_small by (unfold INT_MAX; lia).
    assert (E' : (n s - initialSize s =? INT_MIN) = false)
      by (unfold INT_MIN; nia).
    rewrite E'.
    apply walk_tables_full;
      first [assumption|unfold is_uint, INT_MAX, UINT_MAX; lia]. }
  destruct (Z.eq_dec (i s) 0) as [Hi0|Hi0].
  - rewrite Hi0. change (to_int (uwrap (0 - 1))) with (-1).
    change (-1 <? 0) with true. unfold bind, ret.
    change (Z.to_nat 0) with 0%nat. cbn [items_of search_items].
    apply Hnext.
  - rewrite (uwrap_small (i s - 1)) by (unfold UINT_MAX; lia).
    rewrite to_int_small by (unfold INT_MAX; lia).
    assert (E : (i s - 1 <? 0) = false) by lia. rewrite E.
    replace (i s - 1 + 1) with (i s) by lia.
    rewrite (bind_Ret _ _ _ _ _
               (scan_table_spec equal item Items (itemSize s)
                  (Z.to_nat (i s)) max_depth m (proj1 Hisz)
                  ltac:(rewrite Z2Nat.id; lia) ltac:(unfold UINT_MAX; lia)
                  ltac:(unfold UINT_MAX; lia))).
    destruct (search_items equal item _ max_depth) as [v|d'];
      [reflexivity|].
    apply Hnext.
Qed.

(** On a stack a client can hold whose head table has at most [INT_MAX]
    items the search answers as the specification words it, on the items
    pushed and not yet popped. *)
Lemma itemExists_reach (malloc : Z -> option (nat -> byte))
    (initial_size item_size : Z) (pushed : list (list byte)) (s : Stack)
    (m : machine) (item : list byte) (max_depth : Z)
    (equal : list byte -> list byte -> Z) :
  reach malloc initial_size item_size pushed s ->
  m.(m_stack) = Some s ->
  s.(n) <= INT_MAX ->
  itemExists item max_depth equal m
  = Ret (found_within equal item pushed max_depth) m.
Proof.
  intros Hr Hs Hsmall.
  destruct (reach_Inv _ _ _ _ _ Hr) as (HI & <- & _).
  now apply itemExists_spec.
Qed.

(** C9. [itemExists] leaves the machine as it was, whatever the stack,
    the item, the depth and the predicate: the [Stack] object with its
    chain of tables and their bytes, and the allocator log, to which no
    [free] is added.  The only other outcome is an undefined access (the
    call never leaves by [exit(0)]), and there is none on a stack a
    client can hold whose head table has at most [INT_MAX] items. *)
Theorem itemExists_read_only (item : list byte) (max_depth : Z)
    (equal : list byte -> list byte -> Z) (m : machine) :
  (itemExists item max_depth equal m = Undef \/
   exists r, itemExists item max_depth equal m = Ret r m) /\
  forall (malloc : Z -> option (nat -> byte)) (initial_size item_size : Z)
         (pushed : list (list byte)) (s : Stack),
    reach malloc initial_size item_size pushed s ->
    m.(m_stack) = Some s ->
    s.(n) <= INT_MAX ->
    exists r, itemExists item max_depth equal m = Ret r m.
Proof.
  split.
  - unfold itemExists, bind, get_stack.
    destruct (m_stack m) as [stack|]; [|now left].
    apply walk_tables_frame.
  - intros malloc initial_size item_size pushed s Hr Hs Hsmall.
    eexists.
    exact (itemExists_reach malloc initial_size item_size pushed s m item
             max_depth equal Hr Hs Hsmall).
Qed.

Lemma itemExists_read_only_witness :
  reach calloc_like 2 4 [word Byte.x03; word Byte.x02; word Byte.x01] stack3 /\
  (machine_of stack3).(m_stack) = Some stack3 /\
  stack3.(n) <= INT_MAX /\
  exists r,
    itemExists (word Byte.x01) (-1) same_bytes (machine_of stack3)
    = Ret r (machine_of stack3).
Proof.
  split; [exact reach_stack3|]. split; [reflexivity|].
  split; [discriminate|].
  apply (proj2 (itemExists_read_only (word Byte.x01) (-1) same_bytes
                  (machine_of stack3))
           calloc_like 2 4 _ stack3 reach_stack3 eq_refl).
  discriminate.
Defined.

(** ** The search past [INT_MAX] items *)

Lemma found_within_head (equal : list byte -> list byte -> Z)
    (item cand : list byte) (rest : list (list byte)) (max_depth : Z) :
  equal item cand <> 0 -> max_depth <> 0 ->
  found_within equal item (cand :: rest) max_depth = 1.
Proof.
  intros He Hd. unfold found_within.
  destruct (max_depth <? 0) eqn:E.
  - cbn [existsb]. now rewrite (proj2 (Z.eqb_neq _ _) He).
  - apply Z.ltb_ge in E.
    replace (Z.to_nat max_depth) with (S (Z.to_nat (max_depth - 1))) by lia.
    cbn [firstn existsb]. now rewrite (proj2 (Z.eqb_neq _ _) He).
Qed.

Lemma repeat_S {A} (x : A) (k : nat) : repeat x (S k) = x :: repeat x k.
Proof. reflexivity. Qed.

Lemma rev_map_repeat {A B} (f : A -> B) (x : A) (k : nat) :
  rev (map f (repeat x k)) = repeat (f x) k.
Proof.
  rewrite map_repeat. induction k as [|k IH]; [reflexivity|].
  cbn [repeat rev]. rewrite IH. symmetry. apply repeat_cons.
Qed.

(** With more than [INT_MAX + 1] items in a single table the conversion
    of [stack->i - 1] to [int] is negative: the loop over the head table
    is skipped and the answer is 0, whatever the table holds. *)
Lemma itemExists_skips_large_head (equal : list byte -> list byte -> Z)
    (item : list byte) (max_depth : Z) (m : machine) (s : Stack)
    (Items : table) :
  m.(m_stack) = Some s ->
  s.(head) = [Items] ->
  INT_MAX + 1 < s.(i) <= UINT_MAX ->
  is_uint s.(n) ->
  s.(initialSize) = s.(n) ->
  itemExists item max_depth equal m = Ret 0 m.
Proof.
  intros Hs Hh Hi Hn Hinit. unfold INT_MAX, UINT_MAX in Hi.
  unfold itemExists, bind, get_stack. rewrite Hs, Hh.
  cbn [walk_tables].
  rewrite (uwrap_small (i s - 1)) by (unfold UINT_MAX; lia).
  rewrite to_int_large by (unfold INT_MAX; lia).
  assert (E : (i s - 1 - (UINT_MAX + 1) <? 0) = true)
    by (unfold UINT_MAX; lia).
  rewrite E. unfold bind, ret. cbv zeta.
  rewrite (to_uint_to_int _ Hn), Hinit, Z.sub_diag.
  reflexivity.
Qed.

(** C4, at a stack the code can build: [initStack(0x90000000, 1)] and
    [0x80000001] pushes of the byte [0x2a].  The item searched for is the
    one on top, [equal] is non-zero on it and the specification answers
    1; [itemExists] with [max_depth = -1] answers 0. *)
Theorem itemExists_misses_top_item :
  exists m' s',
    (initStack calloc_like 2415919104 1 ;;;
     push_all calloc_like (bytes_2a 2147483649)) blank1 = Ret tt m' /\
    m'.(m_stack) = Some s' /\
    reach calloc_like 2415919104 1 (bytes_2a 2147483649) s' /\
    found_within same_bytes [Byte.x2a] (bytes_2a 2147483649) (-1) = 1 /\
    itemExists [Byte.x2a] (-1) same_bytes m' = Ret 0 m'.
Proof.
  destruct (push_all_first_table calloc_like 2415919104 1
              (bytes_2a 2147483649) blank1)
    as (m' & s' & Items & Hrun & Hs' & Hr & Hh & Hi & Hn & Hinit).
  - discriminate.
  - unfold UINT_MAX. lia.
  - unfold is_uint, UINT_MAX. lia.
  - unfold UINT_MAX. lia.
  - apply Forall_forall. intros x Hx. apply repeat_spec in Hx. subst x.
    discriminate.
  - rewrite Zlength_repeat; lia.
  - rewrite Zlength_repeat in Hi by lia.
    rewrite rev_map_repeat in Hr.
    replace (slice [Byte.x2a] 0 1) with [Byte.x2a] in Hr by reflexivity.
    exists m', s'.
    split; [exact Hrun|]. split; [exact Hs'|]. split; [exact Hr|].
    split.
    + assert (E : Z.to_nat 2147483649 = S (Z.to_nat 2147483648))
        by (apply (Z2Nat.inj_succ 2147483648); discriminate).
      rewrite E, repeat_S. apply found_within_head; discriminate.
    + apply (itemExists_skips_large_head same_bytes [Byte.x2a] (-1) m' s'
               Items Hs' Hh).
      * rewrite Hi. unfold INT_MAX, UINT_MAX. lia.
      * rewrite Hn. unfold is_uint, UINT_MAX. lia.
      * now rewrite Hn, Hinit.
Qed.

(** ** The release of a stack: every block once *)

Lemma free_nodes_run (node_ptr : list table) (m : machine) (s : Stack) :
  m.(m_stack) = Some s ->
  exists s',
    free_nodes node_ptr m
    = Ret tt (mkMachine (Some s') m.(m_dest)
                        (m.(m_log) ++ frees_of node_ptr)).
Proof.
  revert m s. induction node_ptr as [|Items next IH]; intros m s Hs.
  - exists s. cbn [free_nodes frees_of flat_map]. rewrite app_nil_r.
    destruct m as [p d l]. cbn in Hs. now subst p.
  - cbn [free_nodes]. unfold bind at 1, update_stack. rewrite Hs.
    unfold bind at 1, free, emit. cbn [m_stack m_dest m_log].
    unfold bind at 1. cbn [m_stack m_dest m_log].
    destruct (IH (mkMachine (Some (set_head next s)) (m_dest m)
                            ((m_log m ++ [Free (ItemsBlock Items)])
                             ++ [Free NodeBlock]))
                 (set_head next s) eq_refl) as (s' & Hrun).
    exists s'. rewrite Hrun. cbn [m_dest m_log frees_of flat_map].
    now rewrite <- !app_assoc.
Qed.

Lemma freeStack_run (m : machine) (s : Stack) :
  m.(m_stack) = Some s ->
  freeStack m = Freed m.(m_dest) (m.(m_log) ++ frees_of s.(head)).
Proof.
  intros Hs. unfold freeStack. rewrite Hs.
  destruct (free_nodes_run (head s) m s Hs) as (s' & ->). reflexivity.
Qed.

(** X1. Through a [NULL] handle [freeStack] leaves by [exit(0)] with
    the machine as it was.  On a stack, whatever its chain, it reaches
    [free(stack)]: it never exits and makes no undefined access, leaves
    the destination alone, and frees each table of the chain and its
    node exactly once, from the head table down to the first one. *)
Theorem freeStack_frees_every_table (m : machine) (s : Stack) :
  m.(m_stack) = Some s ->
  freeStack m = Freed m.(m_dest) (m.(m_log) ++ frees_of s.(head)) /\
  freeStack (mkMachine None m.(m_dest) m.(m_log))
  = FreeExit (mkMachine None m.(m_dest) m.(m_log)).
Proof.
  intros Hs. split; [now apply freeStack_run|reflexivity].
Qed.

Lemma freeStack_frees_every_table_witness :
  (machine_of stack3).(m_stack) = Some stack3 /\
  freeStack (machine_of stack3)
  = Freed (word Byte.x00)
          [Free (ItemsBlock (word Byte.x03 ++ repeat Byte.x00 12));
           Free NodeBlock;
           Free (ItemsBlock (word Byte.x01 ++ word Byte.x02));
           Free NodeBlock].
Proof.
  split; [reflexivity|].
  apply (freeStack_frees_every_table (machine_of stack3) stack3 eq_refl).
Defined.

(** ** Sessions: what is allocated is freed *)

Lemma Zlength_app {A} (l1 l2 : list A) :
  Zlength (l1 ++ l2) = Zlength l1 + Zlength l2.
Proof. rewrite !Zlength_correct, length_app. lia. Qed.

Lemma mallocs_app (l1 l2 : list event) :
  mallocs (l1 ++ l2) = mallocs l1 + mallocs l2.
Proof. unfold mallocs. now rewrite filter_app, Zlength_app. Qed.

Lemma frees_app (l1 l2 : list event) : frees (l1 ++ l2) = frees l1 + frees l2.
Proof. unfold frees. now rewrite filter_app, Zlength_app. Qed.

Lemma mallocs_frees_of (node_ptr : list table) : mallocs (frees_of node_ptr) = 0.
Proof.
  induction node_ptr as [|Items next IH]; [reflexivity|].
  change (frees_of (Items :: next))
    with ([Free (ItemsBlock Items); Free NodeBlock] ++ frees_of next).
  rewrite mallocs_app, IH. reflexivity.
Qed.

Lemma frees_frees_of (node_ptr : list table) :
  frees (frees_of node_ptr) = 2 * Zlength node_ptr.
Proof.
  induction node_ptr as [|Items next IH]; [reflexivity|].
  change (frees_of (Items :: next))
    with ([Free (ItemsBlock Items); Free NodeBlock] ++ frees_of next).
  rewrite frees_app, IH, Zlength_cons.
  change (frees [Free (ItemsBlock Items); Free NodeBlock]) with 2. lia.
Qed.

Lemma isStackEmpty_frame (m m' : machine) (e : Z) :
  isStackEmpty m = Ret e m' -> m' = m.
Proof. unfold isStackEmpty. run. branches. Qed.

Lemma itemExists_frame (item : list byte) (max_depth : Z)
    (equal : list byte -> list byte -> Z) (m m' : machine) (r : Z) :
  itemExists item max_depth equal m = Ret r m' -> m' = m.
Proof.
  unfold itemExists, bind, get_stack.
  destruct (m_stack m) as [stack|]; [|discriminate].
  destruct (walk_tables_frame equal item stack (head stack)
              (to_int (n stack)) (to_int (uwrap (i stack - 1))) max_depth m)
    as [->|(r' & ->)]; [discriminate|].
  now intros [= _ <-].
Qed.

(** A completed call keeps the balance: one block for the [Stack]
    object and two for each table of the chain are allocated and not
    freed. *)
Lemma do_call_balance (malloc : Z -> option (nat -> byte)) (c : call)
    (m m' : machine) (s : Stack) (u : unit) :
  m.(m_stack) = Some s ->
  mallocs m.(m_log) = frees m.(m_log) + 1 + 2 * Zlength s.(head) ->
  do_call malloc c m = Ret u m' ->
  exists s',
    m'.(m_stack) = Some s' /\
    mallocs m'.(m_log) = frees m'.(m_log) + 1 + 2 * Zlength s'.(head).
Proof.
  intros Hs Hbal Hrun. destruct c as [item| |item max_depth equal|];
    cbn [do_call] in Hrun.
  - destruct (push_cases malloc item m m' s u Hs Hrun)
      as [(Items & next & src & Items' & Hh & _ & _ & _ & ->)
         |(f1 & f2 & src & Items' & _ & _ & _ & _ & _ & _ & ->)].
    + eexists. split; [reflexivity|]. cbn [m_log head].
      rewrite Hh, !Zlength_cons in *. exact Hbal.
    + eexists. split; [reflexivity|]. cbn [m_log head].
      rewrite mallocs_app, frees_app, Zlength_cons.
      change (mallocs [Malloc sizeof_node; Malloc _]) with 2.
      change (frees [Malloc sizeof_node; Malloc _]) with 0. lia.
  - destruct (pop_cases m m' s u Hs Hrun)
      as [(Items & next & src & dest' & _ & _ & _ & _ & ->)
         |(old_Items & Items & next & src & dest' & Hh & _ & _ & _ & ->)].
    + eexists. split; [reflexivity|]. exact Hbal.
    + eexists. split; [reflexivity|]. cbn [m_log head].
      rewrite mallocs_app, frees_app. rewrite Hh, !Zlength_cons in *.
      change (mallocs [Free (ItemsBlock old_Items); Free NodeBlock]) with 0.
      change (frees [Free (ItemsBlock old_Items); Free NodeBlock]) with 2.
      lia.
  - destruct (bind_Ret_inv _ _ _ _ _ Hrun) as (r & m0 & Hcall & Hret).
    apply itemExists_frame in Hcall. subst m0.
    injection Hret as _ <-. eauto.
  - destruct (bind_Ret_inv _ _ _ _ _ Hrun) as (r & m0 & Hcall & Hret).
    apply isStackEmpty_frame in Hcall. subst m0.
    injection Hret as _ <-. eauto.
Qed.

Lemma run_calls_balance (malloc : Z -> option (nat -> byte))
    (calls : list call) (m m' : machine) (s : Stack) (u : unit) :
  m.(m_stack) = Some s ->
  mallocs m.(m_log) = frees m.(m_log) + 1 + 2 * Zlength s.(head) ->
  run_calls malloc calls m = Ret u m' ->
  exists s',
    m'.(m_stack) = Some s' /\
    mallocs m'.(m_log) = frees m'.(m_log) + 1 + 2 * Zlength s'.(head).
Proof.
  revert m s. induction calls as [|c calls IH]; intros m s Hs Hbal Hrun.
  - injection Hrun as _ <-. eauto.
  - cbn [run_calls] in Hrun.
    destruct (bind_Ret_inv _ _ _ _ _ Hrun) as (v & m0 & Hcall & Hrest).
    destruct (do_call_balance malloc c m m0 s v Hs Hbal Hcall)
      as (s0 & Hs0 & Hbal0).
    exact (IH m0 s0 Hs0 Hbal0 Hrest).
Qed.

Lemma accounts_app (b : blocks) (l1 l2 : list event) :
  accounts b (l1 ++ l2)
  = match accounts b l1 with
    | Some b' => accounts b' l2
    | None => None
    end.
Proof.
  revert b. induction l1 as [|e l1 IH]; intros b; [reflexivity|].
  cbn [app accounts]. destruct (account b e); [apply IH|reflexivity].
Qed.

Lemma accounts_frees_of (node_ptr : list table) (rest : list Z) :
  accounts (mkBlocks true Settled (map (@Zlength byte) node_ptr ++ rest))
           (frees_of node_ptr)
  = Some (mkBlocks true Settled rest).
Proof.
  induction node_ptr as [|Items next IH]; [reflexivity|].
  cbn [frees_of flat_map map app accounts account b_phase b_tables b_object].
  rewrite Z.eqb_refl. exact IH.
Qed.

(** The account refuses a log in which a block is freed twice in a row. *)
Lemma accounts_refuses_second_free (b : blocks) (l1 l2 : list event)
    (x : block) :
  accounts b (l1 ++ Free x :: Free x :: l2) = None.
Proof.
  rewrite accounts_app. destruct (accounts b l1) as [[o ph tabs]|];
    [|reflexivity].
  destruct x as [|Items]; destruct ph; try reflexivity.
  cbn [accounts account b_phase b_tables b_object].
  destruct tabs as [|size rest]; [reflexivity|].
  destruct (Zlength Items =? size); reflexivity.
Qed.

(** A completed call keeps the account: the blocks the log leaves

    allocated are the [Stack] object and, for each table of the chain, its
    node and its table. *)
Lemma do_call_accounts (malloc : Z -> option (nat -> byte)) (c : call)
    (m m' : machine) (s : Stack) (u : unit) :
  m.(m_stack) = Some s ->
  accounts no_block m.(m_log)
  = Some (mkBlocks true Settled (map (@Zlength byte) s.(head))) ->
  do_call malloc c m = Ret u m' ->
  exists s',
    m'.(m_stack) = Some s' /\
    accounts no_block m'.(m_log)
    = Some (mkBlocks true Settled (map (@Zlength byte) s'.(head))).
Proof.
  intros Hs Hacc Hrun. destruct c as [item| |item max_depth equal|];
    cbn [do_call] in Hrun.
  - destruct (push_cases malloc item m m' s u Hs Hrun)
      as [(Items & next & src & Items' & Hh & _ & _ & Hst & ->)
         |(f1 & f2 & src & Items' & _ & _ & _ & _ & _ & Hst & ->)].
    + eexists. split; [reflexivity|]. cbn [m_log head map].
      rewrite (Zlength_store _ _ _ _ Hst). rewrite Hh in Hacc. exact Hacc.
    + eexists. split; [reflexivity|]. cbn [m_log head map].
      rewrite accounts_app, Hacc.
      rewrite (Zlength_store _ _ _ _ Hst), Zlength_fresh
        by apply uwrap_range.
      reflexivity.
  - destruct (pop_cases m m' s u Hs Hrun)
      as [(Items & next & src & dest' & _ & _ & _ & _ & ->)
         |(old_Items & Items & next & src & dest' & Hh & _ & _ & _ & ->)].
    + eexists. split; [reflexivity|]. exact Hacc.
    + eexists. split; [reflexivity|]. cbn [m_log head].
      rewrite accounts_app, Hacc, Hh.
      cbn [map accounts account b_phase b_tables b_object].
      rewrite Z.eqb_refl. reflexivity.
  - destruct (bind_Ret_inv _ _ _ _ _ Hrun) as (r & m0 & Hcall & Hret).
    apply itemExists_frame in Hcall. subst m0.
    injection Hret as _ <-. eauto.
  - destruct (bind_Ret_inv _ _ _ _ _ Hrun) as (r & m0 & Hcall & Hret).
    apply isStackEmpty_frame in Hcall. subst m0.
    injection Hret as _ <-. eauto.
Qed.

Lemma run_calls_accounts (malloc : Z -> option (nat -> byte))
    (calls : list call) (m m' : machine) (s : Stack) (u : unit) :
  m.(m_stack) = Some s ->
  accounts no_block m.(m_log)
  = Some (mkBlocks true Settled (map (@Zlength byte) s.(head))) ->
  run_calls malloc calls m = Ret u m' ->
  exists s',
    m'.(m_stack) = Some s' /\
    accounts no_block m'.(m_log)
    = Some (mkBlocks true Settled (map (@Zlength byte) s'.(head))).
Proof.
  revert m s. induction calls as [|c calls IH]; intros m s Hs Hacc Hrun.
  - injection Hrun as _ <-. eauto.
  - cbn [run_calls] in Hrun.
    destruct (bind_Ret_inv _ _ _ _ _ Hrun) as (v & m0 & Hcall & Hrest).
    destruct (do_call_accounts malloc c m m0 s v Hs Hacc Hcall)
      as (s0 & Hs0 & Hacc0).
    exact (IH m0 s0 Hs0 Hacc0 Hrest).
Qed.

(** X2. No leak and no double free over a session.  After [initStack]
    on a machine with an empty log and any completed sequence of [push],
    [pop], [itemExists] and [isStackEmpty] calls, the log accounts for
    the blocks event by event: every table is allocated right after its
    node, every [free] is of a block allocated and not yet freed (the
    table of the newest node, then that node), and what is left allocated
    is the [Stack] object and one node and one table, of its size, for
    each table of the chain.  [freeStack] then reaches [free(stack)], and
    its log leaves no node and no table allocated: only the [Stack]
    object, which that last [free] releases. *)
Theorem session_leaves_no_block (malloc : Z -> option (nat -> byte))
    (initial_size item_size : Z) (calls : list call) (m m' : machine) :
  m.(m_log) = [] ->
  (initStack malloc initial_size item_size ;;; run_calls malloc calls) m
  = Ret tt m' ->
  exists s' log,
    m'.(m_stack) = Some s' /\
    accounts no_block m'.(m_log)
    = Some (mkBlocks true Settled (map (@Zlength byte) s'.(head))) /\
    freeStack m' = Freed m'.(m_dest) log /\
    accounts no_block log = Some (mkBlocks true Settled []) /\
    mallocs log = frees log + 1.
Proof.
  intros Hlog Hrun.
  destruct (bind_Ret_inv _ _ _ _ _ Hrun) as (u & m0 & Hinit & Hcalls).
  destruct (initStack_cases malloc _ _ _ _ _ Hinit)
    as (f1 & f2 & f3 & E1 & E2 & E3).
  rewrite (initStack_run malloc _ _ m f1 f2 f3 E1 E2 E3) in Hinit.
  injection Hinit as _ <-.
  pose proof Hcalls as Hcalls'.
  match type of Hcalls with
  | run_calls _ _ (mkMachine (Some ?s0) ?d ?l) = _ =>
    destruct (run_calls_balance malloc calls (mkMachine (Some s0) d l) m' s0
                tt eq_refl) as (s' & Hs' & Hbal); [|exact Hcalls|];
    [|destruct (run_calls_accounts malloc calls (mkMachine (Some s0) d l) m'
                  s0 tt eq_refl) as (s'' & Hs'' & Hacc); [|exact Hcalls'|]]
  end.
  { cbn [m_log head]. rewrite Hlog. reflexivity. }
  { cbn [m_log head map]. rewrite Hlog.
    rewrite Zlength_fresh by apply uwrap_range. reflexivity. }
  rewrite Hs' in Hs''. injection Hs'' as <-.
  exists s', (m_log m' ++ frees_of (head s')).
  split; [assumption|]. split; [assumption|]. split; [|split].
  - apply (freeStack_run m' s' Hs').
  - rewrite accounts_app, Hacc.
    rewrite <- (app_nil_r (map (@Zlength byte) (head s'))).
    apply accounts_frees_of.
  - rewrite mallocs_app, frees_app, mallocs_frees_of, frees_frees_of. lia.
Qed.

Lemma session_leaves_no_block_witness :
  blank.(m_log) = [] /\
  (initStack calloc_like 2 4 ;;;
   run_calls calloc_like
     [Push (word Byte.x01); Push (word Byte.x02); Push (word Byte.x03);
      Pop; Search (word Byte.x01) (-1) same_bytes; Pop; IsEmpty]) blank
  = Ret tt (mkMachine
              (Some (mkStack [word Byte.x01 ++ word Byte.x02] 1 2 4 2))
              (word Byte.x02)
              [Malloc 24; Malloc 16; Malloc 8; Malloc 16; Malloc 16;
               Free (ItemsBlock (word Byte.x03 ++ repeat Byte.x00 12));
               Free NodeBlock])
  /\
  exists s' log,
    Some (mkStack [word Byte.x01 ++ word Byte.x02] 1 2 4 2) = Some s' /\
    accounts no_block
      [Malloc 24; Malloc 16; Malloc 8; Malloc 16; Malloc 16;
       Free (ItemsBlock (word Byte.x03 ++ repeat Byte.x00 12));
       Free NodeBlock]
    = Some (mkBlocks true Settled (map (@Zlength byte) s'.(head))) /\
    freeStack (mkMachine
                 (Some (mkStack [word Byte.x01 ++ word Byte.x02] 1 2 4 2))
                 (word Byte.x02)
                 [Malloc 24; Malloc 16; Malloc 8; Malloc 16; Malloc 16;
                  Free (ItemsBlock (word Byte.x03 ++ repeat Byte.x00 12));
                  Free NodeBlock])
    = Freed (word Byte.x02) log /\
    accounts no_block log = Some (mkBlocks true Settled []) /\
    mallocs log = frees log + 1.
Proof.
  split; [reflexivity|]. split; [reflexivity|].
  exact (session_leaves_no_block calloc_like 2 4
           [Push (word Byte.x01); Push (word Byte.x02); Push (word Byte.x03);
            Pop; Search (word Byte.x01) (-1) same_bytes; Pop; IsEmpty] blank
           (mkMachine
              (Some (mkStack [word Byte.x01 ++ word Byte.x02] 1 2 4 2))
              (word Byte.x02)
              [Malloc 24; Malloc 16; Malloc 8; Malloc 16; Malloc 16;
               Free (ItemsBlock (word Byte.x03 ++ repeat Byte.x00 12));
               Free NodeBlock])
           eq_refl eq_refl).
Defined.

(** ** Any order of pushes and pops *)

(** X3. Whatever the earlier pushes and pops, a completed [pop] copies
    to the destination the item pushed last among those not yet popped,
    [itemSize] bytes of it, and leaves a stack that holds the others. *)
Theorem pop_gives_newest (malloc : Z -> option (nat -> byte))
    (initial_size item_size : Z) (pushed : list (list byte)) (s : Stack)
    (m m' : machine) (u : unit) :
  reach malloc initial_size item_size pushed s ->
  m.(m_stack) = Some s ->
  pop m = Ret u m' ->
  exists x rest s',
    pushed = x :: rest /\
    Zlength x = item_size /\
    m'.(m_dest) = x ++ skipn (Z.to_nat item_size) m.(m_dest) /\
    m'.(m_stack) = Some s' /\
    reach malloc initial_size item_size rest s'.
Proof.
  intros Hr Hs Hrun. destruct u.
  destruct (reach_Inv _ _ _ _ _ Hr) as (HI & Hc & Hisz & _).
  destruct (pop_step m m' s tt Hs HI Hrun)
    as (s' & x & Hs' & _ & Hc' & Hd & Hx & _).
  exists x, (contents s'), s'.
  split; [congruence|]. split; [congruence|].
  split.
  { rewrite Hd. do 2 f_equal. rewrite Zlength_correct in Hx. lia. }
  split; [assumption|].
  pose proof (reach_pop malloc _ _ _ s s' m m' Hr Hs Hrun Hs') as Hr'.
  now rewrite <- Hc, Hc' in Hr'.
Qed.

Lemma pop_gives_newest_witness :
  reach calloc_like 2 4 [word Byte.x03; word Byte.x02; word Byte.x01] stack3 /\
  (machine_of stack3).(m_stack) = Some stack3 /\
  pop (machine_of stack3) = Ret tt (mkMachine (Some stack3') (word Byte.x03) [])
  /\
  exists x rest s',
    [word Byte.x03; word Byte.x02; word Byte.x01] = x :: rest /\
    Zlength x = 4 /\
    word Byte.x03 = x ++ skipn (Z.to_nat 4) (word Byte.x00) /\
    Some stack3' = Some s' /\
    reach calloc_like 2 4 rest s'.
Proof.
  split; [exact reach_stack3|]. split; [reflexivity|]. split; [reflexivity|].
  apply (pop_gives_newest calloc_like 2 4 _ stack3 (machine_of stack3)
           (mkMachine (Some stack3') (word Byte.x03) []) tt
           reach_stack3 eq_refl eq_refl).
Defined.

(** X4. [pop] right after a completed [push] completes when the
    destination has room, gives back the [itemSize] bytes just pushed,
    frees nothing, and leaves a stack that holds what it held before the
    [push]. *)
Theorem push_then_pop (malloc : Z -> option (nat -> byte))
    (initial_size item_size : Z) (pushed : list (list byte)) (s : Stack)
    (m m1 : machine) (item : list byte) :
  reach malloc initial_size item_size pushed s ->
  m.(m_stack) = Some s ->
  push malloc item m = Ret tt m1 ->
  item_size <= Zlength m.(m_dest) ->
  exists m2 s2,
    pop m1 = Ret tt m2 /\
    m2.(m_dest)
    = slice item 0 item_size ++ skipn (Z.to_nat item_size) m.(m_dest) /\
    m2.(m_log) = m1.(m_log) /\
    m2.(m_stack) = Some s2 /\
    reach malloc initial_size item_size pushed s2.
Proof.
  intros Hr Hs Hpush Hd.
  destruct (reach_Inv _ _ _ _ _ Hr) as (HI & Hc & Hisz & _).
  destruct (push_step malloc item m m1 s tt Hs HI Hpush)
    as (s1 & Hs1 & HI1 & Hc1 & Hisz1 & _ & Hd1).
  pose proof (reach_push malloc _ _ _ s s1 item m m1 Hr Hs Hpush Hs1) as Hr1.
  assert (Hi1 : i s1 <> 0).
  { destruct (push_cases malloc item m m1 s tt Hs Hpush)
      as [(Items & next & src & Items' & Hh & Hroom & Hl & Hst & ->)
         |(f1 & f2 & src & Items' & _ & _ & _ & _ & _ & _ & ->)].
    - injection Hs1 as <-.
      destruct (push_room_Inv s item Items next src Items' HI Hh Hroom Hl Hst)
        as (_ & _ & Hi & _).
      rewrite Hi. destruct HI as (_ & _ & HI'). rewrite Hh in HI'. lia.
    - injection Hs1 as <-. discriminate. }
  destruct (pop_returns m1 s1 Hs1 HI1) as (m2 & Hpop).
  { rewrite Hc1. discriminate. }
  { rewrite Hd1, Hisz1, Hisz. exact Hd. }
  destruct (pop_step m1 m2 s1 tt Hs1 HI1 Hpop)
    as (s2 & x & Hs2 & _ & Hc2 & Hd2 & Hx & _).
  rewrite Hc1 in Hc2. injection Hc2 as <- _.
  pose proof (reach_pop malloc _ _ _ s1 s2 m1 m2 Hr1 Hs1 Hpop Hs2) as Hr2.
  cbn [tl] in Hr2.
  exists m2, s2. split; [assumption|].
  split.
  { rewrite Hd2, Hd1, Hisz. do 2 f_equal.
    rewrite Hisz, Zlength_correct in Hx. lia. }
  split; [|auto].
  destruct (pop_cases m1 m2 s1 tt Hs1 Hpop)
    as [(Items & next & src & dest' & _ & _ & _ & _ & ->)
       |(old_Items & Items & next & src & dest' & _ & Hi & _)];
    [reflexivity|contradiction].
Qed.

Lemma push_then_pop_witness :
  reach calloc_like 2 4 [word Byte.x02; word Byte.x01] stack2 /\
  (machine_of stack2).(m_stack) = Some stack2 /\
  push calloc_like (word Byte.x03) (machine_of stack2)
  = Ret tt (mkMachine (Some stack3) (word Byte.x00) [Malloc 16; Malloc 16]) /\
  4 <= Zlength (machine_of stack2).(m_dest) /\
  exists m2 s2,
    pop (mkMachine (Some stack3) (word Byte.x00) [Malloc 16; Malloc 16])
    = Ret tt m2 /\
    m2.(m_dest)
    = slice (word Byte.x03) 0 4
      ++ skipn (Z.to_nat 4) (machine_of stack2).(m_dest) /\
    m2.(m_log) = [Malloc 16; Malloc 16] /\
    m2.(m_stack) = Some s2 /\
    reach calloc_like 2 4 [word Byte.x02; word Byte.x01] s2.
Proof.
  split; [exact reach_stack2|]. split; [reflexivity|]. split; [reflexivity|].
  split; [discriminate|].
  apply (push_then_pop calloc_like 2 4 _ stack2 (machine_of stack2)
           (mkMachine (Some stack3) (word Byte.x00) [Malloc 16; Malloc 16])
           (word Byte.x03) reach_stack2 eq_refl eq_refl).
  discriminate.
Defined.

(** [push] with room in the head table needs no allocator. *)
Lemma push_room_returns (malloc : Z -> option (nat -> byte)) (s : Stack)
    (m : machine) (item : list byte) (Items : table) (next : list table) :
  Inv s ->
  m.(m_stack) = Some s ->
  s.(head) = Items :: next ->
  s.(i) < s.(n) ->
  (s.(i) + 1) * s.(itemSize) <= Zlength Items ->
  s.(itemSize) <= Zlength item ->
  exists Items',
    push malloc item m
    = Ret tt (mkMachine
                (Some (mkStack (Items' :: next) (s.(i) + 1) s.(n)
                               s.(itemSize) s.(initialSize)))
                m.(m_dest) m.(m_log)).
Proof.
  intros HI Hs Hh Hroom Hfit Hitem.
  pose proof HI as (Hisz & Hinit & HI'). rewrite Hh in HI'.
  destruct HI' as (Hi & Hn & HL & Hfill & Hft).
  pose proof (uwrap_range (n s * itemSize s)) as HLr.
  unfold is_uint in *.
  assert (Hl : load item 0 (itemSize s) = Some (slice item 0 (itemSize s)))
    by (apply load_Some; lia).
  assert (Hlen : Zlength (slice item 0 (itemSize s)) = itemSize s)
    by (apply Zlength_slice; lia).
  assert (Hoff : uwrap (i s * itemSize s) = i s * itemSize s)
    by (apply uwrap_small; nia).
  destruct (store_Some Items (i s * itemSize s) (slice item 0 (itemSize s)))
    as (Items' & Hst).
  { nia. }
  { rewrite Hlen. lia. }
  exists Items'.
  pose proof (push_room malloc item m s Items next
                (slice item 0 (itemSize s)) Items' Hs Hh
                ltac:(lia) Hl) as Hrun.
  rewrite Hoff in Hrun. rewrite (uwrap_small (i s + 1)) in Hrun by lia.
  now apply Hrun.
Qed.

(** X5. [push] right after a completed [pop] completes whatever the
    allocator does, and allocates nothing: the table that the [pop] read
    from has a free place, and a table emptied by a [pop] is kept until
    the next [pop]. *)
Theorem pop_then_push (malloc malloc' : Z -> option (nat -> byte))
    (initial_size item_size : Z) (pushed : list (list byte)) (s : Stack)
    (m m1 : machine) (item : list byte) :
  reach malloc initial_size item_size pushed s ->
  m.(m_stack) = Some s ->
  pop m = Ret tt m1 ->
  item_size <= Zlength item ->
  exists m2,
    push malloc' item m1 = Ret tt m2 /\
    m2.(m_log) = m1.(m_log).
Proof.
  intros Hr Hs Hpop Hitem.
  destruct (reach_Inv _ _ _ _ _ Hr) as (HI & _ & Hisz & _).
  rewrite <- Hisz in Hitem.
  destruct (pop_cases m m1 s tt Hs Hpop)
    as [(Items & next & src & dest' & Hh & Hi & _ & _ & Hm1)
       |(old_Items & Items & next & src & dest' & Hh & Hi & _ & _ & Hm1)].
  - destruct (pop_top_Inv s Items next HI Hh Hi) as (Ei & _ & _ & HI1 & _).
    pose proof HI as (_ & _ & HI'). rewrite Hh in HI'.
    destruct HI' as (Hir & _ & _ & Hfill & _).
    destruct (push_room_returns malloc' _ m1 item Items next HI1
                ltac:(rewrite Hm1; reflexivity) Hh) as (Items' & Hpush).
    + cbn [i n]. rewrite Ei. lia.
    + cbn [i itemSize]. rewrite Ei.
      replace (i s - 1 + 1) with (i s) by lia. exact Hfill.
    + exact Hitem.
    + rewrite Hpush. eexists. split; reflexivity.
  - destruct (pop_descend_Inv s old_Items Items next HI Hh Hi)
      as (En & Ei & HL & _ & _ & HI1 & _).
    pose proof HI1 as (_ & _ & Hir & _). cbn [head i n] in Hir.
    destruct (push_room_returns malloc' _ m1 item Items next HI1
                ltac:(rewrite Hm1; reflexivity) eq_refl) as (Items' & Hpush).
    + cbn [i n]. rewrite Ei. lia.
    + cbn [i itemSize]. rewrite Ei, HL.
      replace (uwrap (n s - initialSize s) - 1 + 1)
        with (uwrap (n s - initialSize s)) by lia. lia.
    + exact Hitem.
    + rewrite Hpush. eexists. split; reflexivity.
Qed.

Lemma pop_then_push_witness :
  reach calloc_like 2 4 [word Byte.x02; word Byte.x01] stack3' /\
  (machine_of stack3').(m_stack) = Some stack3' /\
  pop (machine_of stack3')
  = Ret tt (mkMachine (Some (mkStack [word Byte.x01 ++ word Byte.x02] 1 2 4 2))
              (word Byte.x02)
              [Free (ItemsBlock (word Byte.x03 ++ repeat Byte.x00 12));
               Free NodeBlock]) /\
  4 <= Zlength (word Byte.x05) /\
  exists m2,
    push (fun _ => None) (word Byte.x05)
         (mkMachine (Some (mkStack [word Byte.x01 ++ word Byte.x02] 1 2 4 2))
            (word Byte.x02)
            [Free (ItemsBlock (word Byte.x03 ++ repeat Byte.x00 12));
             Free NodeBlock])
    = Ret tt m2 /\
    m2.(m_log)
    = (mkMachine (Some (mkStack [word Byte.x01 ++ word Byte.x02] 1 2 4 2))
         (word Byte.x02)
         [Free (ItemsBlock (word Byte.x03 ++ repeat Byte.x00 12));
          Free NodeBlock]).(m_log).
Proof.
  split; [exact reach_stack3'|]. split; [reflexivity|]. split; [reflexivity|].
  split; [discriminate|].
  apply (pop_then_push calloc_like (fun _ => None) 2 4 _ stack3'
           (machine_of stack3') _ (word Byte.x05) reach_stack3' eq_refl eq_refl).
  discriminate.
Defined.

(** * The number of items and the byte size of a table *)

Lemma Zlength_items_of (Items : table) (isz k : Z) :
  0 <= k -> Zlength (items_of Items isz (Z.to_nat k)) = k.
Proof.
  intros Hk. rewrite Zlength_correct, length_items_of. lia.
Qed.

Lemma tables_items_count (init isz : Z) (node_ptr : list table) (cap : Z) :
  full_tables init isz node_ptr cap ->
  2 * Zlength (tables_items init isz node_ptr cap)
  = cap * (Zlength node_ptr + 1).
Proof.
  revert cap. induction node_ptr as [|Items next IH]; intros cap Hft.
  - cbn [full_tables] in Hft. subst cap. reflexivity.
  - pose proof (full_tables_cap _ _ _ _ Hft) as Hc.
    cbn [full_tables] in Hft. destruct Hft as (Hpos & _ & _ & Hft).
    pose proof (full_tables_cap _ _ _ _ Hft) as Hc'.
    specialize (IH _ Hft).
    cbn [tables_items]. rewrite Zlength_app, Zlength_items_of by lia.
    rewrite Zlength_cons in *. nia.
Qed.

(** X6. The number of items on a stack a client can hold is fixed by the
    three counters of the code: with [k] tables in the chain, the tables
    under the head hold [initial_size * (1 + ... + (k - 1))] items, the
    head table holds [i] of them, and [i] never passes the size
    [initial_size * k] of the head table. *)
Theorem item_count (malloc : Z -> option (nat -> byte))
    (initial_size item_size : Z) (pushed : list (list byte)) (s : Stack) :
  reach malloc initial_size item_size pushed s ->
  2 * Zlength pushed
  = 2 * s.(i) + initial_size * Zlength s.(head) * (Zlength s.(head) - 1) /\
  0 <= s.(i) <= initial_size * Zlength s.(head).
Proof.
  intros Hr.
  destruct (reach_Inv _ _ _ _ _ Hr) as (HI & Hc & _ & Hinit).
  subst initial_size. pose proof (Inv_n s HI) as Hn.
  rewrite <- Hc. unfold contents.
  destruct HI as (_ & _ & HI).
  destruct (head s) as [|Items next]; [easy|].
  destruct HI as (Hi & _ & _ & _ & Hft).
  pose proof (tables_items_count _ _ _ _ Hft) as Hcount.
  rewrite Zlength_app, Zlength_items_of by lia.
  rewrite Zlength_cons in *. split; nia.
Qed.

Lemma item_count_witness :
  reach calloc_like 2 4 [word Byte.x03; word Byte.x02; word Byte.x01] stack3 /\
  2 * Zlength [word Byte.x03; word Byte.x02; word Byte.x01]
  = 2 * stack3.(i) + 2 * Zlength stack3.(head) * (Zlength stack3.(head) - 1) /\
  0 <= stack3.(i) <= 2 * Zlength stack3.(head).
Proof.
  split; [exact reach_stack3|].
  exact (item_count calloc_like 2 4 _ stack3 reach_stack3).
Defined.

(** * A table whose byte size wrapped *)

Lemma store_None (b : table) (off : Z) (src : list byte) :
  Zlength b < off + Zlength src -> store b off src = None.
Proof.
  intros Hover. destruct (store b off src) as [b'|] eqn:Hst; [|reflexivity].
  destruct (store_inv _ _ _ _ Hst) as (_ & Hin & _). lia.
Qed.

(** A [push] into a head table that has no room left for the bytes of one
    more item: the item is read, and the write is out of the table. *)
Lemma push_overrun (malloc : Z -> option (nat -> byte)) (item : list byte)
    (m : machine) (s : Stack) (Items : table) (next : list table)
    (src : list byte) :
  m.(m_stack) = Some s ->
  s.(head) = Items :: next ->
  s.(i) <> s.(n) ->
  load item 0 s.(itemSize) = Some src ->
  store Items (uwrap (s.(i) * s.(itemSize))) src = None ->
  push malloc item m = Undef.
Proof.
  intros Hs Hh Hroom Hl Hst.
  unfold push. run. rewrite Hs.
  rewrite (proj2 (Z.eqb_neq _ _) Hroom). rewrite Hl. simpl.
  rewrite Hs, Hh, Hst. reflexivity.
Qed.

(** X8. The byte size [n * itemSize] of a table is computed in
    [unsigned int] and is not checked.  When the head table has a free
    place by the counters ([i < n]) but its byte size wrapped so that
    the bytes of one more item do not fit, [push] takes no exit: it reads
    the item and its [memcpy] has a destination that ends past the end of
    the head table, an access outside the allocated block (undefined
    behaviour, the outcome [Undef]), whatever the allocator is. *)
Theorem push_overruns_wrapped_table (malloc malloc' : Z -> option (nat -> byte))
    (initial_size item_size : Z) (pushed : list (list byte)) (s : Stack)
    (m : machine) (item : list byte) :
  reach malloc initial_size item_size pushed s ->
  m.(m_stack) = Some s ->
  s.(i) < s.(n) ->
  uwrap (s.(n) * item_size) < (s.(i) + 1) * item_size ->
  item_size <= Zlength item ->
  exists Items next,
    s.(head) = Items :: next /\
    UINT_MAX < s.(n) * item_size /\
    Zlength Items = uwrap (s.(n) * item_size) /\
    uwrap (s.(i) * item_size) = s.(i) * item_size /\
    load item 0 item_size = Some (slice item 0 item_size) /\
    Zlength (slice item 0 item_size) = item_size /\
    Zlength Items < s.(i) * item_size + item_size /\
    store Items (s.(i) * item_size) (slice item 0 item_size) = None /\
    push malloc' item m = Undef.
Proof.
  intros Hr Hs Hroom Hover Hitem.
  destruct (reach_Inv _ _ _ _ _ Hr) as (HI & _ & Hisz & _).
  subst item_size.
  destruct HI as (His & _ & HI). unfold is_uint in *.
  destruct (head s) as [|Items next] eqn:Hh; [easy|].
  destruct HI as (Hi & Hnu & HL & Hfill & _).
  pose proof (uwrap_range (n s * itemSize s)) as Hr0.
  assert (Hoff : uwrap (i s * itemSize s) = i s * itemSize s)
    by (apply uwrap_small; nia).
  assert (Hl : load item 0 (itemSize s) = Some (slice item 0 (itemSize s)))
    by (apply load_Some; lia).
  assert (Hlen : Zlength (slice item 0 (itemSize s)) = itemSize s)
    by (apply Zlength_slice; lia).
  assert (Hst : store Items (i s * itemSize s) (slice item 0 (itemSize s))
                = None)
    by (apply store_None; rewrite Hlen; lia).
  exists Items, next.
  split; [reflexivity|].
  split.
  { destruct (Z_le_gt_dec (n s * itemSize s) UINT_MAX) as [Hle|Hgt]; [|lia].
    rewrite uwrap_small in Hover by nia. nia. }
  do 4 (split; [assumption|]).
  split; [lia|]. split; [assumption|].
  apply (push_overrun malloc' item m s Items next
           (slice item 0 (itemSize s)) Hs Hh); [lia|exact Hl|].

  rewrite Hoff. exact Hst.
Qed.

Lemma push_overruns_wrapped_table_witness :
  reach calloc_like 2147483648 2 [] stack_wrapped /\
  (machine_of stack_wrapped).(m_stack) = Some stack_wrapped /\
  stack_wrapped.(i) < stack_wrapped.(n) /\
  uwrap (stack_wrapped.(n) * 2) < (stack_wrapped.(i) + 1) * 2 /\
  2 <= Zlength [Byte.x01; Byte.x00] /\
  exists Items next,
    stack_wrapped.(head) = Items :: next /\
    UINT_MAX < stack_wrapped.(n) * 2 /\
    Zlength Items = uwrap (stack_wrapped.(n) * 2) /\
    uwrap (stack_wrapped.(i) * 2) = stack_wrapped.(i) * 2 /\
    load [Byte.x01; Byte.x00] 0 2 = Some (slice [Byte.x01; Byte.x00] 0 2) /\
    Zlength (slice [Byte.x01; Byte.x00] 0 2) = 2 /\
    Zlength Items < stack_wrapped.(i) * 2 + 2 /\
    store Items (stack_wrapped.(i) * 2) (slice [Byte.x01; Byte.x00] 0 2)
    = None /\
    push (fun _ => None) [Byte.x01; Byte.x00] (machine_of stack_wrapped)
    = Undef.
Proof.
  split; [exact reach_stack_wrapped|]. split; [reflexivity|].
  split; [reflexivity|]. split; [reflexivity|]. split; [discriminate|].
  apply (push_overruns_wrapped_table calloc_like (fun _ => None) 2147483648 2
           [] stack_wrapped (machine_of stack_wrapped) [Byte.x01; Byte.x00]
           reach_stack_wrapped eq_refl); [reflexivity|reflexivity|discriminate].
Defined.

(** * What a push leaves in place *)

(** X9. A completed [push] frees nothing and leaves every table where
    it is.  The allocator log is unchanged when the head table had a free
    place, and gains exactly the allocation of one node and of one table
    when it was full, the new table going on top of the chain; the
    destination is unchanged.  Every table of the chain before the call
    is at the same position from the bottom after it, with its size; the
    tables under the head are the same byte for byte, and in the head
    table the bytes of every item stored before are the same. *)
Theorem push_moves_nothing (malloc : Z -> option (nat -> byte))
    (initial_size item_size : Z) (pushed : list (list byte)) (s s1 : Stack)
    (m m1 : machine) (item : list byte) :
  reach malloc initial_size item_size pushed s ->
  m.(m_stack) = Some s ->
  push malloc item m = Ret tt m1 ->
  m1.(m_stack) = Some s1 ->
  m1.(m_dest) = m.(m_dest) /\
  (s.(i) <> s.(n) /\ m1.(m_log) = m.(m_log) /\
   length s1.(head) = length s.(head)
   \/
   s.(i) = s.(n) /\
   m1.(m_log) = m.(m_log) ++ [Malloc sizeof_node;
                              Malloc (uwrap (s1.(n) * item_size))] /\
   tl s1.(head) = s.(head)) /\
  forall (k : nat) (T : table),
    nth_error (rev s.(head)) k = Some T ->
    exists T',
      nth_error (rev s1.(head)) k = Some T' /\
      Zlength T' = Zlength T /\
      ((S k < length s.(head))%nat -> T' = T) /\
      forall j,
        0 <= j -> (S k = length s.(head) -> j < s.(i)) ->
        slice T' (j * item_size) item_size = slice T (j * item_size) item_size.
Proof.
  intros Hr Hs Hpush Hs1.
  destruct (reach_Inv _ _ _ _ _ Hr) as (HI & _ & Hisz & _).
  subst item_size.
  destruct (push_cases malloc item m m1 s tt Hs Hpush)
    as [(Items & next & src & Items' & Hh & Hroom & Hl & Hst & Hm1)
       |(f1 & f2 & src & Items' & Hfull & _ & _ & _ & _ & _ & Hm1)].
  - rewrite Hm1 in Hs1 |- *. injection Hs1 as <-.
    cbn [head m_dest m_log].
    split; [reflexivity|]. split.
    { left. rewrite Hh. auto. }
    intros k T Hk.
    destruct (push_room_Inv s item Items next src Items' HI Hh Hroom Hl Hst)
      as (_ & _ & _ & Hst').
    pose proof HI as (His & _ & _). unfold is_uint in His.
    rewrite Hh in Hk |- *. cbn [rev] in Hk |- *.
    destruct (Nat.lt_ge_cases k (length (rev next))) as [Hlt|Hge].
    + rewrite nth_error_app1 in Hk |- * by assumption.
      exists T. repeat split; auto.
    + rewrite nth_error_app2 in Hk |- * by assumption.
      destruct (k - length (rev next))%nat as [|d] eqn:Hd.
      2:{ destruct d; discriminate. }
      injection Hk as <-. exists Items'.
      split; [reflexivity|].
      split; [exact (Zlength_store _ _ _ _ Hst')|].
      rewrite length_rev in Hge. cbn [length].
      split; [lia|].
      intros j Hj Hji.
      assert (Hlast : S k = S (length next)).
      { rewrite length_rev in Hd. lia. }
      specialize (Hji Hlast).
      apply (slice_store_below _ _ _ _ _ _ Hst'); nia.
  - rewrite Hm1 in Hs1 |- *. injection Hs1 as <-.
    cbn [head n m_dest m_log tl].
    split; [reflexivity|]. split.
    { right. auto. }
    intros k T Hk. cbn [rev].
    pose proof (nth_error_Some (rev (head s)) k) as Hlen.
    rewrite Hk in Hlen.
    assert (Hlt : (k < length (rev (head s)))%nat)
      by (apply Hlen; discriminate).
    rewrite nth_error_app1 by assumption.
    exists T. repeat split; auto.
Qed.

Lemma push_moves_nothing_witness :
  reach calloc_like 2 4 [word Byte.x03; word Byte.x02; word Byte.x01] stack3 /\
  (machine_of stack3).(m_stack) = Some stack3 /\
  push calloc_like (word Byte.x04) (machine_of stack3)
  = Ret tt (machine_of
              (mkStack [word Byte.x03 ++ word Byte.x04 ++ repeat Byte.x00 8;
                        word Byte.x01 ++ word Byte.x02] 2 4 4 2)) /\
  word Byte.x00 = (machine_of stack3).(m_dest) /\
  (stack3.(i) <> stack3.(n) /\ [] = (machine_of stack3).(m_log) /\
   length [word Byte.x03 ++ word Byte.x04 ++ repeat Byte.x00 8;
           word Byte.x01 ++ word Byte.x02] = length stack3.(head)
   \/
   stack3.(i) = stack3.(n) /\
   [] = (machine_of stack3).(m_log)
        ++ [Malloc sizeof_node; Malloc (uwrap (4 * 4))] /\
   tl [word Byte.x03 ++ word Byte.x04 ++ repeat Byte.x00 8;
       word Byte.x01 ++ word Byte.x02] = stack3.(head)) /\
  forall (k : nat) (T : table),
    nth_error (rev stack3.(head)) k = Some T ->
    exists T',
      nth_error
        (rev [word Byte.x03 ++ word Byte.x04 ++ repeat Byte.x00 8;
              word Byte.x01 ++ word Byte.x02]) k = Some T' /\
      Zlength T' = Zlength T /\
      ((S k < length stack3.(head))%nat -> T' = T) /\
      forall j,
        0 <= j -> (S k = length stack3.(head) -> j < stack3.(i)) ->
        slice T' (j * 4) 4 = slice T (j * 4) 4.
Proof.
  split; [exact reach_stack3|]. split; [reflexivity|]. split; [reflexivity|].
  exact (push_moves_nothing calloc_like 2 4 _ stack3 _ (machine_of stack3) _
           (word Byte.x04) reach_stack3 eq_refl eq_refl eq_refl).
Defined.

(** * The exits of push *)

(** X10. When [push] leaves by [exit(0)], the stack and the destination
    of the last [pop] are as before the call: the exit is taken before
    any field or table is written.  The only thing that can have happened
    is the allocation of the new node, when the allocator then refuses
    the new table. *)
Theorem push_exit_changes_nothing (malloc : Z -> option (nat -> byte))
    (item : list byte) (m m' : machine) :
  push malloc item m = Exit m' ->
  m'.(m_stack) = m.(m_stack) /\
  m'.(m_dest) = m.(m_dest) /\
  (m'.(m_log) = m.(m_log) \/
   exists s,
     m.(m_stack) = Some s /\ s.(i) = s.(n) /\
     malloc (uwrap (uwrap (s.(n) + s.(initialSize)) * s.(itemSize))) = None /\
     m'.(m_log) = m.(m_log) ++ [Malloc sizeof_node]).
Proof.
  unfold push. run.
  destruct (m_stack m) as [s|] eqn:Hs.
  2:{ intros [= <-]. rewrite Hs. auto. }
  destruct (Z.eqb_spec (i s) (n s)) as [Hfull|Hroom].
  - destruct (i s >=? uwrap (n s + initialSize s)).
    { intros [= <-]. rewrite Hs. auto. }
    destruct (malloc sizeof_node) as [f1|]; simpl.
    2:{ intros [= <-]. rewrite Hs. auto. }
    destruct (malloc (uwrap (uwrap (n s + initialSize s) * itemSize s)))
      as [f2|] eqn:Hm2; simpl.
    + rewrite Hs. simpl.
      destruct (load item 0 (itemSize s)); simpl; [|discriminate].
      destruct (store _ _ _); discriminate.
    + intros [= <-]. simpl. repeat split; auto.
      right. exists s. auto.
  - simpl. destruct (load item 0 (itemSize s)); simpl; [|discriminate].
    rewrite Hs. simpl.
    destruct (head s); [discriminate|].
    destruct (store _ _ _); discriminate.
Qed.

Lemma push_exit_changes_nothing_witness :
  push nodes_only (word Byte.x03) (machine_of stack_full1)
  = Exit (mkMachine (Some stack_full1) (word Byte.x00) [Malloc 16]) /\
  Some stack_full1 = (machine_of stack_full1).(m_stack) /\
  word Byte.x00 = (machine_of stack_full1).(m_dest) /\
  ([Malloc 16] = (machine_of stack_full1).(m_log) \/
   exists s,
     (machine_of stack_full1).(m_stack) = Some s /\ s.(i) = s.(n) /\
     nodes_only (uwrap (uwrap (s.(n) + s.(initialSize)) * s.(itemSize)))
     = None /\
     [Malloc 16] = (machine_of stack_full1).(m_log) ++ [Malloc sizeof_node]).
Proof.
  split; [reflexivity|].
  exact (push_exit_changes_nothing nodes_only (word Byte.x03)
           (machine_of stack_full1)
           (mkMachine (Some stack_full1) (word Byte.x00) [Malloc 16]) eq_refl).
Defined.

(** * The answer of itemExists *)

Lemma found_within_Exists (equal : list byte -> list byte -> Z)
    (item : list byte) (items : list (list byte)) (max_depth : Z) :
  (found_within equal item items max_depth = 0 \/
   found_within equal item items max_depth = 1) /\
  (found_within equal item items max_depth = 1 <->
   Exists (fun cand => equal item cand <> 0)
          (if max_depth <? 0 then items
           else firstn (Z.to_nat max_depth) items)).
Proof.
  unfold found_within.
  set (l := if max_depth <? 0 then items
            else firstn (Z.to_nat max_depth) items).
  destruct (existsb (fun cand => negb (equal item cand =? 0)) l) eqn:E.
  - split; [auto|]. split; [intros _|reflexivity].
    apply existsb_exists in E. destruct E as (x & Hin & Hx).
    apply Exists_exists. exists x. split; [assumption|].
    apply negb_true_iff, Z.eqb_neq in Hx. assumption.
  - split; [auto|]. split; [discriminate|]. intros HE. exfalso.
    apply Exists_exists in HE. destruct HE as (x & Hin & Hx).
    assert (existsb (fun cand => negb (equal item cand =? 0)) l = true).
    { apply existsb_exists. exists x. split; [assumption|].
      apply negb_true_iff, Z.eqb_neq. assumption. }
    congruence.
Qed.

(** X11. On a stack a client can hold whose head table has at most
    [INT_MAX] items, [itemExists] answers 0 or 1, and answers 1 exactly
    when [equal] accepts one of the items looked at: every item of the
    stack when [max_depth] is negative, the [max_depth] newest ones
    otherwise.  The candidates handed to [equal] are the items as they
    were pushed. *)
Theorem itemExists_finds (malloc : Z -> option (nat -> byte))
    (initial_size item_size : Z) (pushed : list (list byte)) (s : Stack)
    (m : machine) (item : list byte) (max_depth : Z)
    (equal : list byte -> list byte -> Z) :
  reach malloc initial_size item_size pushed s ->
  m.(m_stack) = Some s ->
  s.(n) <= INT_MAX ->
  exists r,
    itemExists item max_depth equal m = Ret r m /\
    (r = 0 \/ r = 1) /\
    (r = 1 <->
     Exists (fun cand => equal item cand <> 0)
            (if max_depth <? 0 then pushed
             else firstn (Z.to_nat max_depth) pushed)).
Proof.
  intros Hr Hs Hsmall.
  exists (found_within equal item pushed max_depth).
  split.
  - exact (itemExists_reach malloc initial_size item_size pushed s m item
             max_depth equal Hr Hs Hsmall).
  - apply found_within_Exists.
Qed.

Lemma itemExists_finds_witness :
  reach calloc_like 2 4 [word Byte.x03; word Byte.x02; word Byte.x01] stack3 /\
  (machine_of stack3).(m_stack) = Some stack3 /\
  stack3.(n) <= INT_MAX /\
  exists r,
    itemExists (word Byte.x01) 2 same_bytes (machine_of stack3)
    = Ret r (machine_of stack3) /\
    (r = 0 \/ r = 1) /\
    (r = 1 <->
     Exists (fun cand => same_bytes (word Byte.x01) cand <> 0)
            (if 2 <? 0 then [word Byte.x03; word Byte.x02; word Byte.x01]
             else firstn (Z.to_nat 2)
                    [word Byte.x03; word Byte.x02; word Byte.x01])).
Proof.
  split; [exact reach_stack3|]. split; [reflexivity|].
  split; [discriminate|].
  apply (itemExists_finds calloc_like 2 4 _ stack3 (machine_of stack3)
           (word Byte.x01) 2 same_bytes reach_stack3 eq_refl).
  discriminate.
Defined.

(** X12. On a stack with no item [itemExists] answers 0 without a call
    of [equal], whatever the depth and however large the first table
    is: the scan of the head table is skipped and there is no other
    table. *)
Theorem itemExists_on_empty (malloc : Z -> option (nat -> byte))
    (initial_size item_size : Z) (s : Stack) (m : machine)
    (item : list byte) (max_depth : Z) (equal : list byte -> list byte -> Z) :
  reach malloc initial_size item_size [] s ->
  m.(m_stack) = Some s ->
  itemExists item max_depth equal m = Ret 0 m.
Proof.
  intros Hr Hs.
  destruct (reach_Inv _ _ _ _ _ Hr) as (HI & Hc & _).
  pose proof (Inv_n s HI) as Hn.
  destruct (proj1 (contents_nil_iff s HI) Hc) as (Hi & Items & Hh).
  rewrite Hh in Hn. change (Zlength [Items]) with 1 in Hn.
  rewrite Z.mul_1_r in Hn.
  destruct HI as (_ & _ & HI). rewrite Hh in HI.
  destruct HI as (_ & Hnu & _).
  unfold itemExists, bind, get_stack. rewrite Hs, Hh, Hi.
  change (to_int (uwrap (0 - 1))) with (-1).
  cbn [walk_tables]. change (-1 <? 0) with true. cbv iota.
  unfold bind, ret.
  assert (Hnr : 0 <= n s).
  { destruct (reach_Inv _ _ _ _ _ Hr) as ((_ & (H0 & _) & _) & _).
    rewrite Hn. exact H0. }
  rewrite to_uint_to_int by (unfold is_uint; lia).
  rewrite <- Hn, Z.sub_diag. reflexivity.
Qed.

Lemma itemExists_on_empty_witness :
  reach calloc_like 2 4 [] stack0 /\
  (machine_of stack0).(m_stack) = Some stack0 /\
  itemExists (word Byte.x01) (-1) same_bytes (machine_of stack0)
  = Ret 0 (machine_of stack0).
Proof.
  split; [exact reach_stack0|]. split; [reflexivity|].
  exact (itemExists_on_empty calloc_like 2 4 stack0 (machine_of stack0)
           (word Byte.x01) (-1) same_bytes reach_stack0 eq_refl).
Defined.

(** ** Runs on small stacks *)

(** Initial size 2, items of 4 bytes: the third [push] allocates a table
    of 4 items; the pops give 3, 2, 1; the emptied second table is freed
    by the [pop] that follows the one that emptied it. *)
Example three_pushes_three_pops :
  (initStack calloc_like 2 4 ;;;
   push_all calloc_like [word Byte.x01; word Byte.x02; word Byte.x03] ;;;
   e0 <- isStackEmpty ;;
   out <- pop_all 3 ;;
   e1 <- isStackEmpty ;;
   ret (e0, out, e1)) blank
  = Ret (0, [word Byte.x03; word Byte.x02; word Byte.x01], 1)
        (mkMachine (Some (mkStack [word Byte.x01 ++ word Byte.x02] 0 2 4 2))
                   (word Byte.x01)
                   [Malloc 24; Malloc 16; Malloc 8; Malloc 16; Malloc 16;
                    Free (ItemsBlock (word Byte.x03 ++ repeat Byte.x00 12));
                    Free NodeBlock]).
Proof. reflexivity. Qed.

Example search_with_depth :
  (initStack calloc_like 2 4 ;;;
   push_all calloc_like [word Byte.x01; word Byte.x02; word Byte.x03] ;;;
   r2 <- itemExists (word Byte.x01) 2 same_bytes ;;
   r3 <- itemExists (word Byte.x01) 3 same_bytes ;;
   r <- itemExists (word Byte.x01) (-1) same_bytes ;;
   r0 <- itemExists (word Byte.x03) 0 same_bytes ;;
   ret [r2; r3; r; r0]) blank
  = Ret [0; 1; 1; 0] (mkMachine (Some stack3) (word Byte.x00)
                                [Malloc 24; Malloc 16; Malloc 8;
                                 Malloc 16; Malloc 16]).
Proof. reflexivity. Qed.

(** The byte size of a table is computed in [unsigned int]:
    [initStack(65536, 65536)] asks [malloc] for 0 bytes, and the first
    [push] writes 65536 bytes past the end of that table. *)
Example push_past_a_wrapped_table :
  (initStack calloc_like 65536 65536 ;;;
   push calloc_like (repeat Byte.x00 (Z.to_nat 65536))) blank = Undef.
Proof. vm_compute. reflexivity. Qed.
